(** * DeepSea stage parser ([cli/stage_parser.py]): a shallow embedding

    The development follows the Python module top-down:
    - the values a rendered SLS file is made of (YAML scalars, lists and
      mappings) and the handful of Python built-ins the parser applies to
      them;
    - the step classes ([SaltStep] and its four subclasses);
    - the cache directory and the renderer as explicit state;
    - the parser: [SLSParser._gen_state_name_from_include],
      [SLSParser._traverse_state], [SLSParser._search_step] and
      [SLSParser.parse_state_steps].

    Python exceptions are modelled by the error type [exn]; a function that
    may raise returns a [res].

    What the model takes for granted:
    - mappings have string keys and keep insertion order; numbers are
      integers;
    - [assert] statements are executed (the interpreter does not run with
      [-O]);
    - the Salt tree under [/srv/salt] does not change during a call, and
      the cache files under [/tmp] are not part of it; paths are compared
      as strings;
    - a cache file either unpickles to a plan or makes [pickle.load] raise;
    - the recursion of [_traverse_state] is bounded by an explicit depth,
      and reaching the bound raises [RecursionError]. *)

From stdpp Require Import base list gmap strings.
From Stdlib Require Import ZArith Lia Ascii.

Local Open Scope string_scope.
Local Open Scope list_scope.
Local Open Scope Z_scope.
Local Open Scope nat_scope.

(** ** Exceptions and results *)

Inductive exn :=
| AssertionError            (* a failed [assert] *)
| TypeError
| AttributeError
| KeyError
| OrchestrationNotFound     (* raised by [_state_file_path] *)
| UnpicklingError           (* [pickle.load] on a file that is no pickle *)
| RenderError               (* the renderer itself failed *)
| RecursionError.           (* the call depth bound was reached *)

Inductive res (A : Type) :=
| Ok (a : A)
| Raise (e : exn).
Arguments Ok {A} a.
Arguments Raise {A} e.

Declare Scope res_scope.
Notation "'try' x <- e1 ; e2" :=
  (match e1 with
   | Ok x => e2
   | Raise err => Raise err
   end)
  (at level 10, x name, e1 at level 100, e2 at level 200) : res_scope.
Local Open Scope res_scope.

(** ** Values

    What the renderer returns, and what the arguments of a step are made
    of: the YAML data model as Python sees it.  Mappings keep their
    insertion order (the parser walks them with [items()]), so they are
    association lists; their keys are strings.  Numbers are integers. *)

#[warnings="-register-all"]
Inductive value :=
| VNone
| VBool (b : bool)
| VNum (n : Z)
| VStr (s : string)
| VList (l : list value)
| VDict (d : list (string * value)).

(** [d[key]] / [key in d] on a mapping: the first binding of [key]. *)
Fixpoint dict_get (key : string) (d : list (string * value)) : option value :=
  match d with
  | [] => None
  | (k, v) :: d' => if String.eqb k key then Some v else dict_get key d'
  end.

(** [d[key] = val]: overwrite the binding in place, or append a new one. *)
Fixpoint dict_set (key : string) (val : value) (d : list (string * value))
  : list (string * value) :=
  match d with
  | [] => [(key, val)]
  | (k, v) :: d' =>
      if String.eqb k key then (k, val) :: d' else (k, v) :: dict_set key val d'
  end.

(** Python's [==] on these values.  [True == 1] and [False == 0]; lists
    compare element-wise, mappings regardless of order. *)
Fixpoint py_eq (a b : value) {struct a} : bool :=
  match a, b with
  | VNone, VNone => true
  | VBool x, VBool y => Bool.eqb x y
  | VBool x, VNum n => Z.eqb (if x then 1 else 0) n
  | VNum n, VBool x => Z.eqb n (if x then 1 else 0)
  | VNum n, VNum m => Z.eqb n m
  | VStr s, VStr t => String.eqb s t
  | VList l, VList m =>
      (fix list_eq (l m : list value) {struct l} : bool :=
         match l, m with
         | [], [] => true
         | x :: l', y :: m' => py_eq x y && list_eq l' m'
         | _, _ => false
         end) l m
  | VDict d, VDict e =>
      Nat.eqb (length d) (length e) &&
      (fix all_in (d : list (string * value)) : bool :=
         match d with
         | [] => true
         | (k, v) :: d' =>
             match dict_get k e with
             | Some w => py_eq v w && all_in d'
             | None => false
             end
         end) d
  | _, _ => false
  end.

(** Truth value of an object in a condition ([if req:], [a and b]). *)
Definition truthy (v : value) : bool :=
  match v with
  | VNone => false
  | VBool b => b
  | VNum n => negb (Z.eqb n 0)
  | VStr s => negb (String.eqb s "")
  | VList l => match l with [] => false | _ => true end
  | VDict d => match d with [] => false | _ => true end
  end.

(** ** String built-ins *)

Definition dot : ascii := "."%char.
Definition slash : ascii := "/"%char.

(** [s.startswith(p)] *)
Fixpoint startswith (p s : string) : bool :=
  match p, s with
  | EmptyString, _ => true
  | String a p', String b s' => Ascii.eqb a b && startswith p' s'
  | String _ _, EmptyString => false
  end.

(** [s.replace(".", "/")] *)
Fixpoint replace_dots (s : string) : string :=
  match s with
  | EmptyString => EmptyString
  | String c s' => String (if Ascii.eqb c dot then slash else c) (replace_dots s')
  end.

(** [s[n:]] for [n >= 0] *)
Fixpoint str_drop (n : nat) (s : string) : string :=
  match n, s with
  | O, _ => s
  | S n', String _ s' => str_drop n' s'
  | S _, EmptyString => EmptyString
  end.

(** [s[:n]] for [n >= 0] *)
Fixpoint str_take (n : nat) (s : string) : string :=
  match n, s with
  | O, _ => EmptyString
  | S n', String c s' => String c (str_take n' s')
  | S _, EmptyString => EmptyString
  end.

(** [s.split(".")]: never empty, [""] splits into [[""]]. *)
Fixpoint split_dots (s : string) : list string :=
  match s with
  | EmptyString => [EmptyString]
  | String c s' =>
      if Ascii.eqb c dot then EmptyString :: split_dots s'
      else match split_dots s' with
           | [] => [String c EmptyString]
           | w :: ws => String c w :: ws
           end
  end.

(** [".".join(l)] *)
Fixpoint join_dots (l : list string) : string :=
  match l with
  | [] => EmptyString
  | [w] => w
  | w :: ws => w +:+ String dot (join_dots ws)
  end.

(** [s.find(".")]: index of the first dot, [-1] when there is none. *)
Fixpoint find_dot (s : string) : Z :=
  match s with
  | EmptyString => (-1)%Z
  | String c s' =>
      if Ascii.eqb c dot then 0%Z
      else let r := find_dot s' in
           if (r <? 0)%Z then (-1)%Z else (r + 1)%Z
  end.

(** [s[:k]] for any integer [k]: a negative bound counts from the end. *)
Definition str_slice_to (s : string) (k : Z) : string :=
  if (k <? 0)%Z
  then str_take (Z.to_nat (Z.max 0 (Z.of_nat (String.length s) + k))) s
  else str_take (Z.to_nat k) s.

(** [key in s] on strings: [key] occurs as a substring of [s]. *)
Fixpoint substring_of (key s : string) : bool :=
  startswith key s ||
  match s with
  | EmptyString => false
  | String _ s' => substring_of key s'
  end.

(** The characters of a string, as one-character strings. *)
Fixpoint chars (s : string) : list value :=
  match s with
  | EmptyString => []
  | String c s' => VStr (String c EmptyString) :: chars s'
  end.

(** [for x in v]: the elements a [for] loop over [v] visits. *)
Definition py_iter (v : value) : res (list value) :=
  match v with
  | VStr s => Ok (chars s)
  | VList l => Ok l
  | VDict d => Ok (map (fun kv => VStr (fst kv)) d)
  | VNone | VBool _ | VNum _ => Raise TypeError
  end.

(** [key in v] for a string [key]. *)
Definition py_contains (key : string) (v : value) : res bool :=
  match v with
  | VDict d => Ok (match dict_get key d with Some _ => true | None => false end)
  | VStr s => Ok (substring_of key s)
  | VList l => Ok (existsb (fun x => py_eq x (VStr key)) l)
  | VNone | VBool _ | VNum _ => Raise TypeError
  end.

(** [v[key]] for a string [key]; only reached after [key in v] held. *)
Definition py_getitem (key : string) (v : value) : res value :=
  match v with
  | VDict d => match dict_get key d with Some w => Ok w | None => Raise KeyError end
  | _ => Raise TypeError
  end.

(** ** The outside world

    The parser reads the Salt file tree under [/srv/salt] and calls the
    renderer; both are external.  [str_of] is [str(v)] for a value that is
    not a string, as ["{}".format(v)] prints it. *)

Record salt_tree := {
  isdir : string -> bool;          (* os.path.isdir *)
  path_exists : string -> bool;    (* os.path.exists, under /srv/salt *)
  render : string -> res value;    (* SLSRenderer.render *)
  str_of : value -> string
}.

(** ["{}".format(v)] *)
Definition py_format (t : salt_tree) (v : value) : string :=
  match v with
  | VStr s => s
  | _ => str_of t v
  end.

(** ** Steps

    [SaltStep] and its four subclasses.  A step object of the plan is
    referred to by its position in the plan: every object of the list
    [_traverse_state] returns is created (or unpickled) once and occurs there
    once, so the step references that linking stores in [on_success_deps]
    and [on_fail_deps] are positions in the plan. *)

Inductive step_kind := SaltState | SaltRunner | SaltModule | SaltBuiltIn.

Record step := {
  kind : step_kind;
  desc : string;
  args : value;
  state : value;                 (* SaltState only *)
  target : value;                (* SaltState only *)
  fun_ : value;                  (* SaltRunner, SaltModule, SaltBuiltIn *)
  on_success_deps : list nat;
  on_fail_deps : list nat
}.

(** [[arg for arg in args if key in arg]] *)
Fixpoint args_with (key : string) (l : list value) : res (list value) :=
  match l with
  | [] => Ok []
  | arg :: l' =>
      try b <- py_contains key arg;
      try r <- args_with key l';
      Ok (if b then arg :: r else r)
  end.

(** [SaltStep.get_arg], on the [args] of the step. *)
Definition get_arg (args : value) (key : string) : res value :=
  match args with
  | VDict d =>
      match dict_get key d with
      | Some v => Ok v
      | None => Ok VNone
      end
  | VList l =>
      try arg <- args_with key l;
      match arg with
      | a :: _ => py_getitem key a
      | [] => Ok VNone
      end
  | _ => Raise AssertionError
  end.

(** [SaltState.__init__] *)
Definition SaltState_init (desc : string) (args : value) : res step :=
  try sls <- get_arg args "sls";
  try tgt <- get_arg args "tgt";
  Ok {| kind := SaltState; desc := desc; args := args;
        state := sls; target := tgt; fun_ := VNone;
        on_success_deps := []; on_fail_deps := [] |}.

(** [SaltRunner.__init__] *)
Definition SaltRunner_init (desc : string) (args : value) : res step :=
  try name <- get_arg args "name";
  Ok {| kind := SaltRunner; desc := desc; args := args;
        state := VNone; target := VNone; fun_ := name;
        on_success_deps := []; on_fail_deps := [] |}.

(** [SaltModule.__init__] *)
Definition SaltModule_init (desc : string) (args : value) : res step :=
  try name <- get_arg args "name";
  Ok {| kind := SaltModule; desc := desc; args := args;
        state := VNone; target := VNone; fun_ := name;
        on_success_deps := []; on_fail_deps := [] |}.

(** The loop body of [SaltBuiltIn.__init__]: merge one raw argument into
    the mapping built so far. *)
Definition merge_arg (acc : list (string * value)) (arg : value)
  : list (string * value) :=
  match arg with
  | VDict d => fold_left (fun acc kv => dict_set (fst kv) (snd kv) acc) d acc
  | _ => dict_set "nokey" arg acc
  end.

(** The mapping [SaltBuiltIn.__init__] builds from the elements of [args]. *)
Definition condense (raw : list value) : list (string * value) :=
  fold_left merge_arg raw [].

(** [SaltBuiltIn.__init__] *)
Definition SaltBuiltIn_init (desc fn : string) (args : value) : res step :=
  try raw <- py_iter args;
  Ok {| kind := SaltBuiltIn; desc := desc; args := VDict (condense raw);
        state := VNone; target := VNone; fun_ := VStr fn;
        on_success_deps := []; on_fail_deps := [] |}.

(** ** The cache directory and the renderer

    A cache file holds what [pickle.dump] wrote, a plan, or bytes that
    [pickle.load] rejects.  [render_log] records the paths the renderer was
    called on, oldest first. *)

Inductive cache_file :=
| Pickled (plan : list step)
| Garbage.

Record store := {
  cache_dir : gmap string cache_file;
  render_log : list string
}.

(** Computations that read and write the store and may raise: the store is
    kept when an exception is raised (files written so far stay). *)
Definition M (A : Type) : Type := store -> res A * store.

Definition ret {A} (a : A) : M A := fun s => (Ok a, s).
Definition raise {A} (e : exn) : M A := fun s => (Raise e, s).
Definition lift {A} (r : res A) : M A := fun s => (r, s).
Definition bind {A B} (m : M A) (k : A -> M B) : M B :=
  fun s =>
    match m s with
    | (Ok a, s') => k a s'
    | (Raise e, s') => (Raise e, s')
    end.

Declare Scope M_scope.
Delimit Scope M_scope with M.
Notation "'do' x <- e1 ; e2" := (bind e1 (fun x => e2))
  (at level 10, x name, e1 at level 100, e2 at level 200) : M_scope.

(** [SLSRenderer.render] *)
Definition SLSRenderer_render (t : salt_tree) (file_name : string) : M value :=
  fun s =>
    (render t file_name,
     {| cache_dir := cache_dir s; render_log := render_log s ++ [file_name] |}).

(** [os.path.exists(path)] followed by [pickle.load] when the file is there. *)
Definition cache_read (path : string) : M (option (list step)) :=
  fun s =>
    match cache_dir s !! path with
    | None => (Ok None, s)
    | Some (Pickled plan) => (Ok (Some plan), s)
    | Some Garbage => (Raise UnpicklingError, s)
    end.

(** [pickle.dump(result, open(path, 'wb'))] *)
Definition cache_write (path : string) (result : list step) : M unit :=
  fun s =>
    (Ok tt,
     {| cache_dir := <[path := Pickled result]> (cache_dir s);
        render_log := render_log s |}).

(** ** The parser *)

Module SLSParser.

(** [SLSParser._state_name_is_dir] *)
Definition state_name_is_dir (t : salt_tree) (state_name : string) : bool :=
  isdir t ("/srv/salt/" +:+ replace_dots state_name).

(** [SLSParser._state_file_path] *)
Definition state_file_path (t : salt_tree) (state_name : string) : res string :=
  let path :=
    if state_name_is_dir t state_name
    then "/srv/salt/" +:+ replace_dots state_name +:+ "/init.sls"
    else "/srv/salt/" +:+ replace_dots state_name +:+ ".sls" in
  if negb (path_exists t path) then Raise OrchestrationNotFound
  else Ok path.

(** The counting loop of [_gen_state_name_from_include]:
    [for c in include: if c == '.': dot_count += 1 else: break]. *)
Fixpoint count_dots (cs : list value) (dot_count : nat) : nat :=
  match cs with
  | [] => dot_count
  | c :: cs' =>
      if py_eq c (VStr ".") then count_dots cs' (dot_count + 1)
      else dot_count
  end.

(** [include[dot_count:]] *)
Definition slice_from (include : value) (dot_count : nat) : res value :=
  match include with
  | VStr s => Ok (VStr (str_drop dot_count s))
  | VList l => Ok (VList (drop dot_count l))
  | _ => Raise TypeError
  end.

(** [l[:-k]] for [k >= 1]: all but the last [k] elements. *)
Definition drop_last {A} (k : nat) (l : list A) : list A :=
  take (length l - k) l.

(** [SLSParser._gen_state_name_from_include] *)
Definition gen_state_name_from_include (t : salt_tree)
    (parent_state : string) (include : value) : res string :=
  try cs <- py_iter include;
  let dot_count := count_dots cs 0 in
  try include <- slice_from include dot_count;
  let dot_count :=
    if negb (state_name_is_dir t parent_state) then dot_count + 1
    else dot_count in
  let parent_state :=
    if 1 <? dot_count
    then join_dots (drop_last (dot_count - 1) (split_dots parent_state))
    else parent_state in
  Ok (parent_state +:+ "." +:+ py_format t include).


(** A method of [str] called on [v]: there is none unless [v] is a string. *)
Definition as_str (v : value) : res string :=
  match v with
  | VStr s => Ok s
  | _ => Raise AttributeError
  end.

(** ['{}/{}_{}_{}.bin'.format(_CACHE_DIR_PATH_, _CACHE_FILE_PREFIX_,
    stages_only, state_name)] *)
Definition cache_file_path (t : salt_tree) (stages_only : bool)
    (state_name : value) : string :=
  "/tmp" +:+ "/" +:+ "_deepsea" +:+ "_" +:+
  (if stages_only then "True" else "False") +:+ "_" +:+
  py_format t state_name +:+ ".bin".

Section traverse.

Variable t : salt_tree.
Variables stages_only cache : bool.

Local Open Scope M_scope.

(** The recursive call [SLSParser._traverse_state(_, stages_only, cache)]. *)
Variable self : value -> M (list step).

(** [for inc in state_dict['include']: ...] *)
Fixpoint traverse_includes (state_name : string) (incs : list value)
    (result : list step) : M (list step) :=
  match incs with
  | [] => ret result
  | inc :: incs' =>
      do include_state_name <-
        lift (gen_state_name_from_include t state_name inc);
      do sub <- self (VStr include_state_name);
      traverse_includes state_name incs' (result ++ sub)
  end.

(** The body of [for fun, args in steps.items()]. *)
Definition traverse_step (key fn : string) (args : value)
    (result : list step) : M (list step) :=
  if String.eqb fn "salt.state" then
    do st <- lift (SaltState_init key args);
    do sub <- self (state st);
    ret ((result ++ [st]) ++ sub)
  else if String.eqb fn "salt.runner" then
    do st <- lift (SaltRunner_init key args);
    ret (result ++ [st])
  else if String.eqb fn "module.run" then
    do st <- lift (SaltModule_init key args);
    ret (result ++ [st])
  else
    do st <- lift (SaltBuiltIn_init key fn args);
    ret (result ++ [st]).

(** [for fun, args in steps.items(): ...] *)
Fixpoint traverse_steps (key : string) (steps : list (string * value))
    (result : list step) : M (list step) :=
  match steps with
  | [] => ret result
  | (fn, args) :: steps' =>
      do result <- traverse_step key fn args result;
      traverse_steps key steps' result
  end.

(** The body of [for key, steps in state_dict.items()]. *)
Definition traverse_decl (state_name : string)
    (state_dict : list (string * value)) (key : string) (steps : value)
    (result : list step) : M (list step) :=
  if String.eqb key "include" then
    match dict_get "include" state_dict with
    | Some includes =>
        do incs <- lift (py_iter includes);
        traverse_includes state_name incs result
    | None => raise KeyError
    end
  else
    match steps with
    | VDict steps => traverse_steps key steps result
    | _ => ret result
    end.

(** [for key, steps in state_dict.items(): ...] *)
Fixpoint traverse_items (state_name : string)
    (state_dict items : list (string * value)) (result : list step)
  : M (list step) :=
  match items with
  | [] => ret result
  | (key, steps) :: items' =>
      do result <- traverse_decl state_name state_dict key steps result;
      traverse_items state_name state_dict items' result
  end.

(** [SLSParser._traverse_state] from [result = []] to the end of the loop. *)
Definition expand (state_name : value) : M (list step) :=
  do name <- lift (as_str state_name);
  do path <- lift (state_file_path t name);
  do state_dict <- SLSRenderer_render t path;
  match state_dict with
  | VDict d => traverse_items name d d []
  | _ => raise AttributeError
  end.

(** The body of [SLSParser._traverse_state]. *)
Definition traverse_state_body (state_name : value) : M (list step) :=
  do outside <-
    lift (if stages_only
          then try name <- as_str state_name;
               Ok (negb (startswith "ceph.stage" name))
          else Ok false);
  if outside : bool then ret [] else
  let cache_file_path := cache_file_path t stages_only state_name in
  do cached <- (if cache then cache_read cache_file_path else ret None);
  match cached with
  | Some plan => ret plan
  | None =>
      do result <- expand state_name;
      do _ <- (if cache then cache_write cache_file_path result else ret tt);
      ret result
  end.

End traverse.

(** [SLSParser._traverse_state]; [depth] bounds the depth of the recursive
    calls, as the interpreter's recursion limit does. *)
Fixpoint traverse_state (t : salt_tree) (stages_only cache : bool)
    (depth : nat) (state_name : value) : M (list step) :=
  match depth with
  | O => raise RecursionError
  | S depth' =>
      traverse_state_body t stages_only cache
        (traverse_state t stages_only cache depth') state_name
  end.

(** [step.fun[:step.fun.find('.')]] *)
Definition step_mod (st : step) : res string :=
  try f <- as_str (fun_ st);
  Ok (str_slice_to f (find_dot f)).

(** The module test of [_search_step]: [true] when the loop [continue]s
    past [st].  [mod_name] is [None] or a key of a requisite mapping. *)
Definition module_skip (mod_name : option string) (st : step) : res bool :=
  match mod_name with
  | None => Ok false
  | Some m =>
      if truthy (VStr m) then
        match kind st with
        | SaltRunner => Ok (negb (String.eqb m "salt"))
        | SaltState => Ok (negb (String.eqb m "salt"))
        | _ =>
            try step_mod <- step_mod st;
            Ok (negb (String.eqb m step_mod))
        end
      else Ok false
  end.

(** The name test of [_search_step]:
    [step.desc == sid or (name_arg and name_arg == sid)]. *)
Definition name_test (st : step) (sid : value) : res bool :=
  try name_arg <- get_arg (args st) "name";
  Ok (py_eq (VStr (desc st)) sid || (truthy name_arg && py_eq name_arg sid)).

(** The loop of [_search_step], [i] being the position of the head of
    [steps] in the plan. *)
Fixpoint search_from (i : nat) (steps : list step)
    (mod_name : option string) (sid : value) : res (option nat) :=
  match steps with
  | [] => Ok None
  | st :: steps' =>
      try skip <- module_skip mod_name st;
      if skip : bool then search_from (S i) steps' mod_name sid
      else
        try hit <- name_test st sid;
        if hit : bool then Ok (Some i)
        else search_from (S i) steps' mod_name sid
  end.

(** [SLSParser._search_step]: the position of the step found, if any. *)
Definition search_step (steps : list step) (mod_name : option string)
    (sid : value) : res (option nat) :=
  search_from 0 steps mod_name sid.

Definition on_success (st : step) (req_step : nat) : step :=
  {| kind := kind st; desc := desc st; args := args st; state := state st;
     target := target st; fun_ := fun_ st;
     on_success_deps := on_success_deps st ++ [req_step];
     on_fail_deps := on_fail_deps st |}.

Definition on_fail (st : step) (req_step : nat) : step :=
  {| kind := kind st; desc := desc st; args := args st; state := state st;
     target := target st; fun_ := fun_ st;
     on_success_deps := on_success_deps st;
     on_fail_deps := on_fail_deps st ++ [req_step] |}.

(** [if directive in ['require', 'watch', 'onchanges']: ...
     elif directive == 'onfail': ...] *)
Definition add_dep (directive : string) (req_step : nat) (st : step) : step :=
  if existsb (String.eqb directive) ["require"; "watch"; "onchanges"]
  then on_success st req_step
  else if String.eqb directive "onfail" then on_fail st req_step
  else st.

(** One lookup of [process_requisite_directive]: search, assert, append to
    the dependencies of the step at position [i]. *)
Definition link_one (i : nat) (directive : string)
    (mod_name : option string) (sid : value) (result : list step)
  : res (list step) :=
  try req_step <- search_step result mod_name sid;
  match req_step with
  | None => Raise AssertionError
  | Some j => Ok (alter (add_dep directive j) i result)
  end.

(** A [for] loop over [l] whose body updates the plan: [body x result]
    is what one round leaves, and the first exception ends the loop. *)
Fixpoint for_each {A} (body : A -> list step -> res (list step))
    (l : list A) (result : list step) : res (list step) :=
  match l with
  | [] => Ok result
  | x :: l' =>
      try result <- body x result;
      for_each body l' result
  end.

(** [for mod, sid in req.items(): ...] *)
Definition link_pairs (i : nat) (directive : string)
    (items : list (string * value)) : list step -> res (list step) :=
  for_each (fun item => link_one i directive (Some (fst item)) (snd item))
           items.

(** The body of [for req in req]. *)
Definition link_req (i : nat) (directive : string) (req : value)
    (result : list step) : res (list step) :=
  match req with
  | VDict d => link_pairs i directive d result
  | _ => link_one i directive None req result
  end.

(** [process_requisite_directive(step, directive)], for the step [st] at
    position [i] of the plan. *)
Definition process_requisite_directive (i : nat) (st : step)
    (directive : string) (result : list step) : res (list step) :=
  try req <- get_arg (args st) directive;
  if truthy req then
    let reqs := match req with VList l => l | _ => [req] end in
    for_each (link_req i directive) reqs result
  else Ok result.

Definition requisite_directives : list string :=
  ["require"; "watch"; "onchanges"; "onfail"].

(** The body of [for step in result], for the step [st] at position [i]:
    [for directive in ['require', 'watch', 'onchanges', 'onfail']: ...] *)
Definition process_step (ist : nat * step) : list step -> res (list step) :=
  for_each (process_requisite_directive (fst ist) (snd ist))
           requisite_directives.

(** The requisite pass of [parse_state_steps]: [for step in result: ...],
    each step taken with its position. *)
Definition process_requisites (result : list step) : res (list step) :=
  for_each process_step (imap pair result) result.

(** [SLSParser.parse_state_steps] *)
Definition parse_state_steps (t : salt_tree) (depth : nat)
    (state_name : value) (stages_only cache : bool) : M (list step) :=
  bind (traverse_state t stages_only cache depth state_name)
       (fun result => lift (process_requisites result)).

End SLSParser.

(** ** Sample inputs and the rules of the specification *)

(** A Salt tree in which nothing is a directory, and one in which
    everything is. *)
Definition flat_tree : salt_tree := {|
  isdir := fun _ => false;
  path_exists := fun _ => false;
  render := fun _ => Raise RenderError;
  str_of := fun _ => ""
|}.

Definition deep_tree : salt_tree := {|
  isdir := fun _ => true;
  path_exists := fun _ => false;
  render := fun _ => Raise RenderError;
  str_of := fun _ => ""
|}.

(** The resolution rule as the specification words it: count and strip the
    leading dots, one more level for a leaf parent, cut that many minus one
    trailing segments off the parent, glue with a dot. *)
Module Spec.

Fixpoint leading_dots (ref : string) : nat :=
  match ref with
  | String c ref' => if Ascii.eqb c dot then S (leading_dots ref') else 0
  | EmptyString => 0
  end.

Fixpoint strip_dots (ref : string) : string :=
  match ref with
  | String c ref' => if Ascii.eqb c dot then strip_dots ref' else ref
  | EmptyString => EmptyString
  end.

Fixpoint has_dot (s : string) : bool :=
  match s with
  | String c s' => Ascii.eqb c dot || has_dot s'
  | EmptyString => false
  end.

(** Cut the last dotted segment off an identifier, with its dot. *)
Fixpoint remove_last_segment (id : string) : string :=
  match id with
  | String c id' =>
      if has_dot id' then String c (remove_last_segment id') else EmptyString
  | EmptyString => EmptyString
  end.

Definition resolve_include (is_composite : string -> bool)
    (parent_id include_ref : string) : string :=
  let d := leading_dots include_ref in
  let name := strip_dots include_ref in
  let d := if is_composite parent_id then d else S d in
  let truncated :=
    if 1 <? d then Nat.iter (d - 1) remove_last_segment parent_id
    else parent_id in
  truncated +:+ "." +:+ name.

(** What one raw argument of a built-in command contributes to the
    normalized mapping: a single-pair mapping its pair, a scalar a value
    for ["nokey"]. *)
Definition binding_of (arg : value) : string * value :=
  match arg with
  | VDict [(k, v)] => (k, v)
  | _ => ("nokey", arg)
  end.

Definition single_pair_or_plain (arg : value) : Prop :=
  match arg with
  | VDict d => length d = 1
  | _ => True
  end.

(** The portion of [s] before its first dot. *)
Fixpoint before_first_dot (s : string) : string :=
  match s with
  | String c s' =>
      if Ascii.eqb c dot then EmptyString else String c (before_first_dot s')
  | EmptyString => EmptyString
  end.

(** [s] with its final character removed. *)
Definition without_last_char (s : string) : string :=
  String.string_of_list_ascii (removelast (String.list_ascii_of_string s)).

End Spec.

(** A [salt.function] declaration and an old-style [cmd] declaration, as
    [SaltBuiltIn] builds them, and a runner step. *)
Definition salt_function_step : step := {|
  kind := SaltBuiltIn; desc := "reboot";
  args := VDict [("name", VStr "cmd.run"); ("tgt", VStr "*")];
  state := VNone; target := VNone; fun_ := VStr "salt.function";
  on_success_deps := []; on_fail_deps := []
|}.

Definition plain_cmd_step : step := {|
  kind := SaltBuiltIn; desc := "sync";
  args := VDict [("nokey", VStr "run"); ("name", VStr "/bin/sync")];
  state := VNone; target := VNone; fun_ := VStr "cmd";
  on_success_deps := []; on_fail_deps := []
|}.

Definition runner_step : step := {|
  kind := SaltRunner; desc := "advise";
  args := VList [VDict [("name", VStr "advise.osds")]];
  state := VNone; target := VNone; fun_ := VStr "advise.osds";
  on_success_deps := []; on_fail_deps := []
|}.

(** A state step, as [SaltState] builds it, and a plan of a runner, a
    state and a [salt.function] step. *)
Definition state_step : step := {|
  kind := SaltState; desc := "packages";
  args := VList [VDict [("tgt", VStr "*")];
                 VDict [("sls", VStr "ceph.packages")]];
  state := VStr "ceph.packages"; target := VStr "*"; fun_ := VNone;
  on_success_deps := []; on_fail_deps := []
|}.

Definition mixed_plan : list step :=
  [runner_step; state_step; salt_function_step].

(** A small tree: the directory [ceph/stage/demo] with its [init.sls],
    which includes [sub.sls] next to it. *)
Definition demo_init : value :=
  VDict [("include", VList [VStr ".sub"]);
         ("A", VDict [("salt.runner", VList [VDict [("name", VStr "x.y")]])]);
         ("B", VDict [("cmd.run",
                       VList [VDict [("name", VStr "foo")]; VStr "bar";
                              VDict [("require",
                                      VList [VDict [("salt", VStr "A")];
                                             VStr "C"])];
                              VDict [("onfail", VStr "m.f")]])])].

Definition demo_sub : list (string * value) :=
  [("C", VDict [("module.run", VList [VDict [("name", VStr "m.f")]])]);
   ("junk", VStr "scalar")].

Definition demo_tree : salt_tree := {|
  isdir := fun p => String.eqb p "/srv/salt/ceph/stage/demo";
  path_exists := fun p =>
    String.eqb p "/srv/salt/ceph/stage/demo/init.sls" ||
    String.eqb p "/srv/salt/ceph/stage/demo/sub.sls";
  render := fun p =>
    if String.eqb p "/srv/salt/ceph/stage/demo/init.sls" then Ok demo_init
    else if String.eqb p "/srv/salt/ceph/stage/demo/sub.sls"
         then Ok (VDict demo_sub)
         else Raise RenderError;
  str_of := fun _ => "?"
|}.

(** Nothing cached, nothing rendered yet. *)
Definition empty_store : store := {| cache_dir := ∅; render_log := [] |}.

(** The plan of [ceph.stage.demo], linked. *)
Definition demo_plan : list step :=
  [ {| kind := SaltModule; desc := "C";
       args := VList [VDict [("name", VStr "m.f")]];
       state := VNone; target := VNone; fun_ := VStr "m.f";
       on_success_deps := []; on_fail_deps := [] |};
    {| kind := SaltRunner; desc := "A";
       args := VList [VDict [("name", VStr "x.y")]];
       state := VNone; target := VNone; fun_ := VStr "x.y";
       on_success_deps := []; on_fail_deps := [] |};
    {| kind := SaltBuiltIn; desc := "B";
       args := VDict [("name", VStr "foo"); ("nokey", VStr "bar");
                      ("require", VList [VDict [("salt", VStr "A")]; VStr "C"]);
                      ("onfail", VStr "m.f")];
       state := VNone; target := VNone; fun_ := VStr "cmd.run";
       on_success_deps := [1; 0]; on_fail_deps := [0] |} ].

(** ** Relating two expansions *)

(** [g] follows [f]: from related stores, when [f] returns a value, [g]
    returns the same value, and the stores they leave are related. *)
Definition sim {A} (R : store -> store -> Prop) (f g : M A) : Prop :=
  forall s1 s2 a s1',
    R s1 s2 -> f s1 = (Ok a, s1') ->
    exists s2', g s2 = (Ok a, s2') /\ R s1' s2'.

(** The renderer was called on [path]. *)
Definition logged (s : store) (path : string) : store :=
  {| cache_dir := cache_dir s; render_log := render_log s ++ [path] |}.

(** Every entry filed under a stage name holds a plan, the one expansion
    without the cache returns for that stage. *)
Definition sound_cache (t : salt_tree) (stages_only : bool) (s : store)
  : Prop :=
  forall name f,
    cache_dir s !! SLSParser.cache_file_path t stages_only (VStr name)
      = Some f ->
    exists plan depth s0,
      f = Pickled plan /\
      fst (SLSParser.traverse_state t stages_only false depth (VStr name) s0)
        = Ok plan.

(** A cache in which the entry of [ceph.stage.demo] is damaged. *)
Definition damaged_store : store := {|
  cache_dir := {[ "/tmp/_deepsea_True_ceph.stage.demo.bin" := Garbage ]};
  render_log := []
|}.

(** A step as [_traverse_state] returns it, before linking. *)
Definition unlinked (st : step) : step :=
  {| kind := kind st; desc := desc st; args := args st; state := state st;
     target := target st; fun_ := fun_ st;
     on_success_deps := []; on_fail_deps := [] |}.

(** ** Requisites *)

(** The lookups the requisite pass makes for the value [req] of a
    directive: one per pair of a mapping entry, with the key as module
    hint, and one without hint per other entry. *)
Definition declared_lookups (req : value) : list (option string * value) :=
  if truthy req then
    flat_map (fun entry =>
                match entry with
                | VDict d => map (fun item => (Some (fst item), snd item)) d
                | _ => [(None, entry)]
                end)
             (match req with VList l => l | _ => [req] end)
  else [].

(** A step matches a lookup when it passes the module test and the name
    test of the search. *)
Definition matches (mod_name : option string) (sid : value) (st : step)
  : Prop :=
  SLSParser.module_skip mod_name st = Ok false /\
  SLSParser.name_test st sid = Ok true.

(** A step a lookup with the module hint [hint] considers: a runner or
    state step when the hint is ["salt"], a module or built-in step when
    the hint equals [fun[:fun.find('.')]]. *)
Definition eligible (hint : string) (st : step) : Prop :=
  (kind st = SaltRunner \/ kind st = SaltState) /\ hint = "salt"
  \/
  (kind st = SaltModule \/ kind st = SaltBuiltIn) /\
  exists f, fun_ st = VStr f /\ str_slice_to f (find_dot f) = hint.

(** A step such a lookup leaves out: a runner or state step when the hint
    is not ["salt"], a module or built-in step when the hint differs from
    [fun[:fun.find('.')]]. *)
Definition excluded (hint : string) (st : step) : Prop :=
  (kind st = SaltRunner \/ kind st = SaltState) /\ hint <> "salt"
  \/
  (kind st = SaltModule \/ kind st = SaltBuiltIn) /\
  exists f, fun_ st = VStr f /\ str_slice_to f (find_dot f) <> hint.

(** A step the loop goes past: left out, or considered and of another
    name. *)
Definition passed_over (hint : string) (sid : value) (st : step) : Prop :=
  excluded hint st \/
  eligible hint st /\ SLSParser.name_test st sid = Ok false.

(** The name condition of the search: the description is the target, or
    the ["name"] argument is set and is the target. *)
Definition name_matches (st : step) (sid : value) : Prop :=
  exists name_arg,
    get_arg (args st) "name" = Ok name_arg /\
    (py_eq (VStr (desc st)) sid = true \/
     truthy name_arg = true /\ py_eq name_arg sid = true).

(** Steps every lookup can read without an exception of its own: the
    arguments are a mapping or a list of mappings, and the [fun] of a
    module or built-in step is a string. *)
Definition is_dict (v : value) : bool :=
  match v with VDict _ => true | _ => false end.

Definition readable_args (a : value) : bool :=
  match a with
  | VDict _ => true
  | VList l => forallb is_dict l
  | _ => false
  end.

Definition readable (st : step) : bool :=
  readable_args (args st) &&
  match kind st with
  | SaltModule | SaltBuiltIn =>
      match fun_ st with VStr _ => true | _ => false end
  | SaltState | SaltRunner => true
  end.

(** The plan as linking has it at some point: the steps of [plan], with
    dependencies added. *)
Definition same_steps (plan r : list step) : Prop :=
  map unlinked r = map unlinked plan.

(** Two stages with a requisite nothing answers.  In [orphan] a command
    requires [nonexistent_step].  In [nameless] a command requires
    [cmd: nonexistent_step] and comes after a [module.run] written in the
    style that names the function by a key, without a [name] argument. *)
Definition orphan_tree : salt_tree := {|
  isdir := fun _ => false;
  path_exists := fun _ => true;
  render := fun p =>
    if String.eqb p "/srv/salt/ceph/stage/orphan.sls" then
      Ok (VDict [("B", VDict [("cmd.run",
                               VList [VDict [("name", VStr "foo")];
                                      VDict [("require",
                                              VStr "nonexistent_step")]])])])
    else if String.eqb p "/srv/salt/ceph/stage/nameless.sls" then
      Ok (VDict [("update",
                  VDict [("module.run",
                          VList [VDict [("mine.update", VList [])]])]);
                 ("B",
                  VDict [("cmd.run",
                          VList [VDict [("name", VStr "foo")];
                                 VDict [("require",
                                         VList [VDict [("cmd",
                                                        VStr "nonexistent_step")]])]])])])
    else Raise RenderError;
  str_of := fun _ => "?"
|}.

Definition orphan_step : step := {|
  kind := SaltBuiltIn; desc := "B";
  args := VDict [("name", VStr "foo"); ("require", VStr "nonexistent_step")];
  state := VNone; target := VNone; fun_ := VStr "cmd.run";
  on_success_deps := []; on_fail_deps := []
|}.

Definition nameless_step : step := {|
  kind := SaltModule; desc := "update";
  args := VList [VDict [("mine.update", VList [])]];
  state := VNone; target := VNone; fun_ := VNone;
  on_success_deps := []; on_fail_deps := []
|}.

Definition hinted_step : step := {|
  kind := SaltBuiltIn; desc := "B";
  args := VDict [("name", VStr "foo");
                 ("require", VList [VDict [("cmd", VStr "nonexistent_step")]])];
  state := VNone; target := VNone; fun_ := VStr "cmd.run";
  on_success_deps := []; on_fail_deps := []
|}.

(** ** Further notions for the search and the arguments *)

(** The value of [key] in the first mapping of [l] that binds it, [None]
    when no mapping does. *)
Fixpoint first_bound (key : string) (l : list value) : value :=
  match l with
  | [] => VNone
  | VDict d :: l' =>
      match dict_get key d with
      | Some v => v
      | None => first_bound key l'
      end
  | _ :: l' => first_bound key l'
  end.

Definition single_pair (arg : value) : Prop :=
  exists k v, arg = VDict [(k, v)].

(** ** What linking computes *)

(** The step a lookup resolves to in [plan], as a list: empty when the
    search finds nothing or raises. *)
Definition lookup_target (plan : list step) (l : option string * value)
  : list nat :=
  match SLSParser.search_step plan (fst l) (snd l) with
  | Ok (Some j) => [j]
  | _ => []
  end.

(** The steps the lookups of one directive of [st] resolve to, in order. *)
Definition targets (plan : list step) (st : step) (directive : string)
  : list nat :=
  match get_arg (args st) directive with
  | Ok req => flat_map (lookup_target plan) (declared_lookups req)
  | Raise _ => []
  end.

(** [st] with the targets of its four directives appended to its
    dependency lists. *)
Definition linked_step (plan : list step) (st : step) : step :=
  {| kind := kind st; desc := desc st; args := args st; state := state st;
     target := target st; fun_ := fun_ st;
     on_success_deps :=
       on_success_deps st ++ targets plan st "require"
         ++ targets plan st "watch" ++ targets plan st "onchanges";
     on_fail_deps := on_fail_deps st ++ targets plan st "onfail" |}.

(** [add_dep] for several targets in a row. *)
Definition add_deps (directive : string) (js : list nat) (st : step) : step :=
  fold_left (fun st j => SLSParser.add_dep directive j st) js st.

(** Every dependency of [st] is a position below [n]. *)
Definition deps_in_range (n : nat) (st : step) : Prop :=
  Forall (fun j => j < n) (on_success_deps st ++ on_fail_deps st).

(** The step declares no requisite: each of the four directives is
    absent or has a false value. *)
Definition no_requisite (st : step) : Prop :=
  Forall (fun directive =>
            exists req, get_arg (args st) directive = Ok req /\
                        truthy req = false)
         SLSParser.requisite_directives.

(** Every requisite of [st] can be read and every lookup it declares
    finds a step in [plan]. *)
Definition resolvable (plan : list step) (st : step) : Prop :=
  forall directive,
    In directive SLSParser.requisite_directives ->
    exists req,
      get_arg (args st) directive = Ok req /\
      forall l, In l (declared_lookups req) ->
                exists j, SLSParser.search_step plan (fst l) (snd l)
                          = Ok (Some j).

(** ** What an expansion leaves in the store *)

(** [Q] relates the store before a computation to the store after it,
    whatever the outcome. *)
Definition post {A} (Q : store -> store -> Prop) (f : M A) : Prop :=
  forall s r s', f s = (r, s') -> Q s s'.

(** The plan [result] was filed under [path]. *)
Definition filed (s : store) (path : string) (result : list step) : store :=
  {| cache_dir := <[path := Pickled result]> (cache_dir s);
     render_log := render_log s |}.

(** The renderer was called, on files that exist. *)
Definition rendered_existing (t : salt_tree) (s s' : store) : Prop :=
  exists paths,
    render_log s' = render_log s ++ paths /\
    Forall (fun path => path_exists t path = true) paths.

(** The entries that were in the cache are still there, unchanged. *)
Definition entries_kept (s s' : store) : Prop :=
  forall path f, cache_dir s !! path = Some f -> cache_dir s' !! path = Some f.

(** ** What an expansion returns *)

(** A step as its constructor leaves it: no dependency yet, the derived
    fields read from the arguments, and for a built-in command the
    arguments condensed into a mapping. *)
Definition fresh (st : step) : Prop :=
  on_success_deps st = [] /\ on_fail_deps st = [] /\
  match kind st with
  | SaltState =>
      get_arg (args st) "sls" = Ok (state st) /\
      get_arg (args st) "tgt" = Ok (target st)
  | SaltRunner | SaltModule => get_arg (args st) "name" = Ok (fun_ st)
  | SaltBuiltIn => (exists d, args st = VDict d) /\ exists f, fun_ st = VStr f
  end.

(** The plans in the cache are made of such steps. *)
Definition cache_fresh (s : store) : Prop :=
  forall path plan,
    cache_dir s !! path = Some (Pickled plan) -> Forall fresh plan.

(** When [f] returns a value from a store whose cached plans are fresh,
    the value satisfies [P] and the cached plans are still fresh. *)
Definition yields {A} (P : A -> Prop) (f : M A) : Prop :=
  forall s a s',
    cache_fresh s -> f s = (Ok a, s') -> P a /\ cache_fresh s'.

(** The arguments are a mapping or a list: [get_arg] does not reach its
    [assert False]. *)
Definition mapping_or_list (a : value) : Prop :=
  match a with
  | VDict _ | VList _ => True
  | _ => False
  end.

(** * Properties *)

Import SLSParser.

(** ** Include resolution *)

Lemma count_dots_chars (s : string) (n : nat) :
  count_dots (chars s) n = n + Spec.leading_dots s.
Proof.
  revert n. induction s as [|c s IH]; intros n; simpl.
  - lia.
  - destruct (Ascii.eqb c dot) eqn:E.
    + apply Ascii.eqb_eq in E. subst c. simpl. rewrite IH. lia.
    + unfold dot in E. rewrite E. lia.
Qed.

Lemma str_drop_leading_dots (s : string) :
  str_drop (Spec.leading_dots s) s = Spec.strip_dots s.
Proof.
  induction s as [|c s IH]; simpl; [reflexivity|].
  destruct (Ascii.eqb c dot); simpl; auto.
Qed.

Lemma has_dot_app (a b : string) :
  Spec.has_dot (a +:+ b) = Spec.has_dot a || Spec.has_dot b.
Proof.
  induction a as [|c a IH]; simpl; [reflexivity|].
  rewrite IH. apply orb_assoc.
Qed.

Lemma remove_last_segment_dotfree (w : string) :
  Spec.has_dot w = false -> Spec.remove_last_segment w = "".
Proof.
  destruct w as [|c w]; simpl; [reflexivity|].
  intros H. apply orb_false_iff in H as [_ ->]. reflexivity.
Qed.

Lemma remove_last_segment_app (w rest : string) :
  Spec.remove_last_segment (w +:+ String dot rest) =
  if Spec.has_dot rest then w +:+ String dot (Spec.remove_last_segment rest)
  else w.
Proof.
  induction w as [|c w IH]; simpl.
  - destruct (Spec.has_dot rest); reflexivity.
  - rewrite has_dot_app. simpl. rewrite orb_true_r.
    rewrite IH. destruct (Spec.has_dot rest); reflexivity.
Qed.

Lemma split_dots_nonempty (s : string) : split_dots s <> [].
Proof.
  destruct s as [|c s]; simpl; [discriminate|].
  destruct (Ascii.eqb c dot); [discriminate|].
  destruct (split_dots s); discriminate.
Qed.

Lemma split_dots_dotfree (s : string) :
  Forall (fun w => Spec.has_dot w = false) (split_dots s).
Proof.
  induction s as [|c s IH]; simpl.
  - repeat constructor.
  - destruct (Ascii.eqb c dot) eqn:E.
    + constructor; [reflexivity | exact IH].
    + destruct (split_dots s) as [|w ws].
      * repeat constructor. simpl. rewrite E. reflexivity.
      * inversion IH; subst. constructor; [|assumption].
        simpl. rewrite E. assumption.
Qed.

Lemma join_split_dots (s : string) : join_dots (split_dots s) = s.
Proof.
  induction s as [|c s IH]; simpl; [reflexivity|].
  destruct (Ascii.eqb c dot) eqn:E.
  - apply Ascii.eqb_eq in E. subst c.
    pose proof (split_dots_nonempty s) as Hne.
    destruct (split_dots s) as [|w ws]; [contradiction|].
    simpl in *. rewrite IH. reflexivity.
  - destruct (split_dots s) as [|w ws] eqn:Hs.
    + exfalso. eapply split_dots_nonempty; eauto.
    + simpl in *. destruct ws; simpl; rewrite <- IH; reflexivity.
Qed.

Lemma has_dot_join (w : string) (m : list string) :
  m <> [] -> Spec.has_dot (join_dots (w :: m)) = true.
Proof.
  destruct m as [|w' m]; [contradiction|]. intros _.
  change (join_dots (w :: w' :: m)) with (w +:+ String dot (join_dots (w' :: m))).
  rewrite has_dot_app. simpl. apply orb_true_r.
Qed.

Lemma remove_last_segment_join (m : list string) :
  Forall (fun w => Spec.has_dot w = false) m ->
  Spec.remove_last_segment (join_dots m) = join_dots (drop_last 1 m).
Proof.
  unfold drop_last.
  induction m as [|w m IH]; intros Hm; [reflexivity|].
  inversion Hm as [|? ? Hw Hm']; subst.
  destruct m as [|w' m].
  - simpl. apply remove_last_segment_dotfree, Hw.
  - change (join_dots (w :: w' :: m))
      with (w +:+ String dot (join_dots (w' :: m))).
    rewrite remove_last_segment_app.
    replace (length (w :: w' :: m) - 1) with (S (length (w' :: m) - 1))
      by (simpl; lia).
    rewrite firstn_cons.
    destruct m as [|w'' m].
    + inversion Hm'; subst. simpl. 
      assert (Spec.has_dot w' = false) as -> by assumption. reflexivity.
    + rewrite has_dot_join by discriminate.
      rewrite IH by assumption.
      remember (w' :: w'' :: m) as l.
      assert (take (length l - 1) l <> []) as Hne.
      { subst l. simpl. discriminate. }
      destruct (take (length l - 1) l); [contradiction|]. reflexivity.
Qed.

Lemma join_drop_last_iter (k : nat) (m : list string) :
  Forall (fun w => Spec.has_dot w = false) m ->
  join_dots (drop_last k m) = Nat.iter k Spec.remove_last_segment (join_dots m).
Proof.
  intros Hm. induction k as [|k IH].
  - unfold drop_last. simpl. rewrite Nat.sub_0_r, firstn_all. reflexivity.
  - simpl. rewrite <- IH.
    rewrite remove_last_segment_join by (apply Forall_take, Hm).
    unfold drop_last. rewrite take_take, length_take.
    f_equal. f_equal. lia.
Qed.

(** C2: on every parent identifier and include reference the parser's
    resolution computes what the rule of the specification computes:
    count and strip the leading dots, add one for a parent that is not
    directory-like, cut [d - 1] trailing segments off the parent when
    [d > 1], and join parent and remaining name with a dot. *)
Theorem gen_state_name_from_include_spec (t : salt_tree)
    (parent_state include : string) :
  gen_state_name_from_include t parent_state (VStr include) =
  Ok (Spec.resolve_include (state_name_is_dir t) parent_state include).
Proof.
  unfold gen_state_name_from_include, Spec.resolve_include. simpl.
  rewrite count_dots_chars, Nat.add_0_l, str_drop_leading_dots.
  destruct (state_name_is_dir t parent_state); simpl negb; cbv iota.
  - destruct (1 <? Spec.leading_dots include); [|reflexivity].
    rewrite join_drop_last_iter by apply split_dots_dotfree.
    rewrite join_split_dots. reflexivity.
  - rewrite Nat.add_1_r.
    destruct (1 <? S (Spec.leading_dots include)); [|reflexivity].
    rewrite join_drop_last_iter by apply split_dots_dotfree.
    rewrite join_split_dots. reflexivity.
Qed.

(** C1 (as stated, refuted): with the parent [ceph.stage.4] a leaf, the
    include [..iscsi] does not resolve to [ceph.stage.iscsi]. *)
Lemma include_of_leaf_stage_4_counterexample :
  state_name_is_dir flat_tree "ceph.stage.4" = false /\
  gen_state_name_from_include flat_tree "ceph.stage.4" (VStr "..iscsi")
    <> Ok "ceph.stage.iscsi".
Proof. split; [reflexivity | discriminate]. Qed.

(** C1 (amended): for the parent [ceph.stage.4] and the include [..iscsi]
    the result is [ceph.stage.iscsi] when the parent is directory-like, as
    in the docstring of the function, and [ceph.iscsi] when it is a leaf. *)
Theorem include_of_stage_4 (t : salt_tree) :
  gen_state_name_from_include t "ceph.stage.4" (VStr "..iscsi") =
  Ok (if state_name_is_dir t "ceph.stage.4"
      then "ceph.stage.iscsi" else "ceph.iscsi").
Proof.
  unfold gen_state_name_from_include. simpl.
  destruct (state_name_is_dir t "ceph.stage.4"); reflexivity.
Qed.

(** C7 (as stated, refuted): with the parent [ceph.stage] directory-like,
    the include [.openattic] does not resolve to [ceph.openattic]. *)
Lemma include_of_composite_stage_counterexample :
  state_name_is_dir deep_tree "ceph.stage" = true /\
  gen_state_name_from_include deep_tree "ceph.stage" (VStr ".openattic")
    <> Ok "ceph.openattic".
Proof. split; [reflexivity | discriminate]. Qed.

(** C7 (amended): for the parent [ceph.stage] and the include
    [.openattic] the result is [ceph.stage.openattic] when the parent is
    directory-like, and [ceph.openattic] when it is a leaf. *)
Theorem include_of_stage (t : salt_tree) :
  gen_state_name_from_include t "ceph.stage" (VStr ".openattic") =
  Ok (if state_name_is_dir t "ceph.stage"
      then "ceph.stage.openattic" else "ceph.openattic").
Proof.
  unfold gen_state_name_from_include. simpl.
  destruct (state_name_is_dir t "ceph.stage"); reflexivity.
Qed.

(** ** Built-in commands *)

Lemma dict_get_set (k k' : string) (v : value) (d : list (string * value)) :
  dict_get k (dict_set k' v d) =
  if String.eqb k' k then Some v else dict_get k d.
Proof.
  induction d as [|[k0 v0] d IH]; simpl.
  - reflexivity.
  - destruct (String.eqb_spec k0 k') as [->|Hne]; simpl.
    + destruct (String.eqb k' k); reflexivity.
    + rewrite IH. destruct (String.eqb_spec k0 k) as [->|Hne']; [|reflexivity].
      destruct (String.eqb_spec k' k) as [->|_]; [contradiction|reflexivity].
Qed.

Lemma merge_arg_binding (acc : list (string * value)) (arg : value) :
  Spec.single_pair_or_plain arg ->
  merge_arg acc arg =
  dict_set (fst (Spec.binding_of arg)) (snd (Spec.binding_of arg)) acc.
Proof.
  destruct arg as [| | | | |d]; try reflexivity.
  simpl. intros Hd. destruct d as [|[k v] [|? ?]]; try discriminate.
  reflexivity.
Qed.

Lemma condense_snoc (raw : list value) (arg : value) :
  condense (raw ++ [arg]) = merge_arg (condense raw) arg.
Proof. unfold condense. rewrite fold_left_app. reflexivity. Qed.

Lemma condense_lookup (raw : list value) (k : string) :
  Forall Spec.single_pair_or_plain raw ->
  dict_get k (condense raw) = dict_get k (rev (map Spec.binding_of raw)).
Proof.
  induction raw as [|arg raw IH] using rev_ind; intros Hraw.
  - reflexivity.
  - apply Forall_app in Hraw as [Hraw Harg]. inversion Harg; subst.
    rewrite condense_snoc, merge_arg_binding by assumption.
    rewrite dict_get_set, map_app, rev_app_distr. simpl.
    destruct (Spec.binding_of arg) as [k0 v0]. simpl.
    rewrite IH by assumption. reflexivity.
Qed.

(** C8: a built-in command made from the raw arguments
    [[{"name": "foo"}, "bar"]] has the arguments
    [{"name": "foo", "nokey": "bar"}]; and for every raw list of scalars
    and single-pair mappings, the normalized mapping binds a key to the
    value of the last element that provides it, a scalar providing
    ["nokey"] and a mapping its own pair. *)
Theorem SaltBuiltIn_normalization (desc fn : string) (raw : list value)
    (Hraw : Forall Spec.single_pair_or_plain raw) :
  (exists st,
     SaltBuiltIn_init desc fn (VList [VDict [("name", VStr "foo")]; VStr "bar"])
       = Ok st /\
     args st = VDict [("name", VStr "foo"); ("nokey", VStr "bar")]) /\
  (exists st d,
     SaltBuiltIn_init desc fn (VList raw) = Ok st /\
     kind st = SaltBuiltIn /\ fun_ st = VStr fn /\
     args st = VDict d /\
     forall k, dict_get k d = dict_get k (rev (map Spec.binding_of raw))).
Proof.
  split.
  - eexists. split; reflexivity.
  - eexists. exists (condense raw). repeat split.
    intros k. apply condense_lookup, Hraw.
Qed.

Lemma SaltBuiltIn_normalization_witness :
  exists st d,
    SaltBuiltIn_init "motd" "file.managed"
      (VList [VDict [("name", VStr "/etc/motd")]; VStr "first";
              VDict [("name", VStr "/etc/issue")]; VStr "second"]) = Ok st /\
    kind st = SaltBuiltIn /\ fun_ st = VStr "file.managed" /\
    args st = VDict d /\
    forall k, dict_get k d =
      dict_get k [("nokey", VStr "second"); ("name", VStr "/etc/issue");
                  ("nokey", VStr "first"); ("name", VStr "/etc/motd")].
Proof.
  apply (SaltBuiltIn_normalization "motd" "file.managed"
           [VDict [("name", VStr "/etc/motd")]; VStr "first";
            VDict [("name", VStr "/etc/issue")]; VStr "second"]).
  repeat constructor.
Defined.

(** ** Searching a step *)

Lemma find_dot_without_dot (f : string) :
  Spec.has_dot f = false -> find_dot f = (-1)%Z.
Proof.
  induction f as [|c f IH]; simpl; [reflexivity|].
  intros H. apply orb_false_iff in H as [-> Hf].
  rewrite IH by assumption. reflexivity.
Qed.

Lemma find_dot_with_dot (f : string) :
  Spec.has_dot f = true ->
  find_dot f = Z.of_nat (String.length (Spec.before_first_dot f)).
Proof.
  induction f as [|c f IH]; simpl; [discriminate|].
  destruct (Ascii.eqb c dot); simpl; [reflexivity|].
  intros Hf. rewrite IH by assumption.
  destruct (Z.ltb_spec (Z.of_nat (String.length (Spec.before_first_dot f))) 0);
    lia.
Qed.

Lemma str_take_before_first_dot (f : string) :
  str_take (String.length (Spec.before_first_dot f)) f = Spec.before_first_dot f.
Proof.
  induction f as [|c f IH]; simpl; [reflexivity|].
  destruct (Ascii.eqb c dot); simpl; [reflexivity|].
  rewrite IH. reflexivity.
Qed.

Lemma str_take_without_last_char (f : string) :
  str_take (String.length f - 1) f = Spec.without_last_char f.
Proof.
  unfold Spec.without_last_char.
  induction f as [|c f IH]; [reflexivity|].
  destruct f as [|c' f]; [reflexivity|].
  replace (String.length (String c (String c' f)) - 1)
    with (S (String.length (String c' f) - 1)) by (simpl; lia).
  change (str_take (S ?n) (String c ?s)) with (String c (str_take n s)).
  rewrite IH. reflexivity.
Qed.

(** The module prefix the search compares with, for a dotted [fun]. *)
Lemma slice_to_first_dot (f : string) :
  Spec.has_dot f = true ->
  str_slice_to f (find_dot f) = Spec.before_first_dot f.
Proof.
  intros Hf. unfold str_slice_to. rewrite find_dot_with_dot by assumption.
  destruct (Z.ltb_spec (Z.of_nat (String.length (Spec.before_first_dot f))) 0);
    [lia|].
  rewrite Nat2Z.id. apply str_take_before_first_dot.
Qed.

(** ... and for a [fun] without a dot. *)
Lemma slice_to_missing_dot (f : string) :
  Spec.has_dot f = false ->
  str_slice_to f (find_dot f) = Spec.without_last_char f.
Proof.
  intros Hf. unfold str_slice_to. rewrite find_dot_without_dot by assumption.
  change ((-1 <? 0)%Z) with true. cbv iota.
  rewrite <- str_take_without_last_char. f_equal. lia.
Qed.

(** What a successful search found: a step of the plan that passed the
    module test and the name test. *)
Lemma search_from_found (steps : list step) (mod_name : option string)
    (sid : value) (i j : nat) :
  search_from i steps mod_name sid = Ok (Some j) ->
  exists st, i <= j /\ steps !! (j - i) = Some st /\
    module_skip mod_name st = Ok false /\ name_test st sid = Ok true.
Proof.
  revert i. induction steps as [|st steps IH]; intros i; simpl; [discriminate|].
  destruct (module_skip mod_name st) as [skip|] eqn:Hskip; [|discriminate].
  destruct skip.
  - intros H. apply IH in H as (st' & Hle & Hst' & Hm & Hn).
    exists st'. split; [lia|]. split; [|auto].
    replace (j - i) with (S (j - S i)) by lia. exact Hst'.
  - destruct (name_test st sid) as [hit|] eqn:Hhit; [|discriminate].
    destruct hit.
    + intros [= <-]. exists st. rewrite Nat.sub_diag. auto.
    + intros H. apply IH in H as (st' & Hle & Hst' & Hm & Hn).
      exists st'. split; [lia|]. split; [|auto].
      replace (j - i) with (S (j - S i)) by lia. exact Hst'.
Qed.

(** C10: for a module or built-in step whose [fun] has no dot, the module
    prefix the search compares with a (non-empty) hint is [fun] without its
    last character ([find] returns [-1]), so the step passes the module
    test exactly when the hint equals that, and a search over this step
    alone finds it exactly when moreover the name test passes. *)
Theorem module_prefix_without_dot (st : step) (f hint : string) (sid : value)
    (Hkind : kind st = SaltModule \/ kind st = SaltBuiltIn)
    (Hfun : fun_ st = VStr f)
    (Hdot : Spec.has_dot f = false)
    (Hhint : hint <> "") :
  find_dot f = (-1)%Z /\
  step_mod st = Ok (Spec.without_last_char f) /\
  module_skip (Some hint) st =
    Ok (negb (String.eqb hint (Spec.without_last_char f))) /\
  search_step [st] (Some hint) sid =
    if String.eqb hint (Spec.without_last_char f)
    then try hit <- name_test st sid; Ok (if hit : bool then Some 0 else None)
    else Ok None.
Proof.
  assert (Hmod : step_mod st = Ok (Spec.without_last_char f)).
  { unfold step_mod. rewrite Hfun. simpl.
    rewrite slice_to_missing_dot by assumption. reflexivity. }
  assert (Hskip : module_skip (Some hint) st =
                  Ok (negb (String.eqb hint (Spec.without_last_char f)))).
  { unfold module_skip. simpl.
    destruct (String.eqb_spec hint "") as [->|_]; [contradiction|]. simpl.
    destruct Hkind as [-> | ->]; rewrite Hmod; reflexivity. }
  split; [apply find_dot_without_dot, Hdot|].
  split; [exact Hmod|]. split; [exact Hskip|].
  unfold search_step. cbn [search_from]. rewrite Hskip.
  destruct (String.eqb hint (Spec.without_last_char f)); simpl; [|reflexivity].
  destruct (name_test st sid) as [[|]|]; reflexivity.
Qed.

Lemma module_prefix_without_dot_witness :
  step_mod plain_cmd_step = Ok "cm" /\
  search_step [plain_cmd_step] (Some "cm") (VStr "sync") = Ok (Some 0) /\
  search_step [plain_cmd_step] (Some "cmd") (VStr "sync") = Ok None.
Proof.
  pose proof (module_prefix_without_dot plain_cmd_step "cmd" "cm" (VStr "sync")
                (or_intror eq_refl) eq_refl eq_refl ltac:(discriminate))
    as (_ & Hmod & _ & Hcm).
  pose proof (module_prefix_without_dot plain_cmd_step "cmd" "cmd" (VStr "sync")
                (or_intror eq_refl) eq_refl eq_refl ltac:(discriminate))
    as (_ & _ & _ & Hcmd).
  repeat split; assumption.
Defined.

(** C5 (as stated, refuted): a lookup with the hint ["salt"] finds a
    built-in [salt.function] step, which is neither a runner nor a state
    step; and a lookup with the hint ["cm"] finds a built-in step whose
    [fun] is ["cmd"]. *)
Lemma search_step_hint_counterexample :
  (SaltBuiltIn_init "reboot" "salt.function"
     (VList [VDict [("name", VStr "cmd.run")]; VDict [("tgt", VStr "*")]])
     = Ok salt_function_step /\
   kind salt_function_step = SaltBuiltIn /\
   search_step [salt_function_step] (Some "salt") (VStr "reboot") = Ok (Some 0))
  /\
  (SaltBuiltIn_init "sync" "cmd"
     (VList [VStr "run"; VDict [("name", VStr "/bin/sync")]])
     = Ok plain_cmd_step /\
   Spec.before_first_dot "cmd" <> "cm" /\
   search_step [plain_cmd_step] (Some "cm") (VStr "sync") = Ok (Some 0)).
Proof. repeat split; discriminate. Qed.

(** The module test with a non-empty hint, by the class of the step. *)
Lemma module_skip_hint (hint : string) (st : step) :
  hint <> "" ->
  module_skip (Some hint) st =
    match kind st with
    | SaltRunner | SaltState => Ok (negb (String.eqb hint "salt"))
    | SaltModule | SaltBuiltIn =>
        try m <- step_mod st; Ok (negb (String.eqb hint m))
    end.
Proof.
  intros Hhint. unfold module_skip. cbn [truthy].
  destruct (String.eqb_spec hint "") as [->|_]; [contradiction|].
  cbn [negb]. destruct (kind st); reflexivity.
Qed.

Lemma module_test_eligible (hint : string) (st : step) :
  hint <> "" ->
  module_skip (Some hint) st = Ok false <-> eligible hint st.
Proof.
  intros Hhint. rewrite module_skip_hint by assumption.
  unfold eligible, step_mod. split.
  - destruct (kind st) eqn:Hk.
    1,2: intros [= Hs]; apply negb_false_iff, String.eqb_eq in Hs; left; auto.
    1,2: destruct (fun_ st) as [| | |f| |]; simpl; try discriminate;
         intros [= Hs]; apply negb_false_iff, String.eqb_eq in Hs;
         right; split; [auto|]; exists f; split; [reflexivity | congruence].
  - intros [[[Hk | Hk] ->] | [[Hk | Hk] (f & Hf & Hm)]]; rewrite Hk;
      try reflexivity;
      rewrite Hf; simpl; rewrite Hm, String.eqb_refl; reflexivity.
Qed.

Lemma module_test_excluded (hint : string) (st : step) :
  hint <> "" ->
  module_skip (Some hint) st = Ok true <-> excluded hint st.
Proof.
  intros Hhint. rewrite module_skip_hint by assumption.
  unfold excluded, step_mod. split.
  - destruct (kind st) eqn:Hk.
    1,2: intros [= Hs]; apply negb_true_iff, String.eqb_neq in Hs; left; auto.
    1,2: destruct (fun_ st) as [| | |f| |]; simpl; try discriminate;
         intros [= Hs]; apply negb_true_iff, String.eqb_neq in Hs;
         right; split; [auto|]; exists f; split; [reflexivity | congruence].
  - intros [[[Hk | Hk] Hne] | [[Hk | Hk] (f & Hf & Hm)]]; rewrite Hk.
    1,2: apply String.eqb_neq in Hne; rewrite Hne; reflexivity.
    1,2: rewrite Hf; simpl;
         assert (Hne : hint <> str_slice_to f (find_dot f)) by congruence;
         apply String.eqb_neq in Hne; rewrite Hne; reflexivity.
Qed.

Lemma name_test_matches (st : step) (sid : value) :
  name_test st sid = Ok true <-> name_matches st sid.
Proof.
  unfold name_test, name_matches.
  destruct (get_arg (args st) "name") as [name_arg|e]; simpl.
  - split.
    + intros [= H]. exists name_arg. split; [reflexivity|].
      apply orb_true_iff in H as [H | H]; [left; exact H|].
      right. apply andb_true_iff in H. exact H.
    + intros (v & [= <-] & [H | [H1 H2]]); f_equal.
      * rewrite H. reflexivity.
      * rewrite H1, H2. apply orb_true_r.
  - split; [discriminate|]. intros (v & Hv & _). discriminate.
Qed.

(** The loop returns the first step that passes both tests, when it got
    past the steps before. *)
Lemma search_from_hit (pre post : list step) (st : step)
    (mod_name : option string) (sid : value) (i : nat) :
  Forall (fun st' => module_skip mod_name st' = Ok true \/
                     module_skip mod_name st' = Ok false /\
                     name_test st' sid = Ok false) pre ->
  module_skip mod_name st = Ok false ->
  name_test st sid = Ok true ->
  search_from i (pre ++ st :: post) mod_name sid = Ok (Some (i + length pre)).
Proof.
  intros Hpre Hskip Hname. revert i.
  induction Hpre as [|st' pre Hst' _ IH]; intros i; cbn [app search_from].
  - rewrite Hskip, Hname. cbn [length]. rewrite Nat.add_0_r. reflexivity.
  - cbn [length]. replace (i + S (length pre)) with (S i + length pre) by lia.
    destruct Hst' as [-> | [-> ->]]; apply IH.
Qed.

(** C5 (amended): for a lookup with a non-empty module hint,
    - the step it finds passes the name test and is either a runner or
      state step, the hint being ["salt"], or a module or built-in step
      whose [fun[:fun.find('.')]] equals the hint, which for a [fun] with a
      dot is the portion before its first dot; so with a hint other than
      ["salt"] runner and state steps are never found;
    - a step passes the module test exactly when it is eligible: runner
      and state steps are eligible for the hint ["salt"], and so is any
      other step whose module prefix is the hint (["salt"] included);
    - a step fails the module test exactly when it is a runner or state
      step and the hint is not ["salt"], or another step whose module
      prefix differs from the hint;
    - for a module or built-in step whose [fun] has a dot, eligible means
      that the hint is the portion of [fun] before its first dot;
    - the name test passes exactly when the description is the target or
      the ["name"] argument is set and is the target;
    - an eligible step that passes the name test is the one the lookup
      returns, when the steps before it are passed over (left out by the
      module test, or eligible with another name). *)
Theorem search_step_hint (steps : list step) (hint : string) (sid : value)
    (Hhint : hint <> "") :
  (forall i, search_step steps (Some hint) sid = Ok (Some i) ->
     exists st,
       steps !! i = Some st /\ name_test st sid = Ok true /\
       ((kind st = SaltRunner \/ kind st = SaltState) /\ hint = "salt"
        \/
        (kind st = SaltModule \/ kind st = SaltBuiltIn) /\
        exists f, fun_ st = VStr f /\ str_slice_to f (find_dot f) = hint /\
                  (Spec.has_dot f = true -> Spec.before_first_dot f = hint)))
  /\
  (forall st, module_skip (Some hint) st = Ok false <-> eligible hint st)
  /\
  (forall st, module_skip (Some hint) st = Ok true <-> excluded hint st)
  /\
  (forall st f,
     kind st = SaltModule \/ kind st = SaltBuiltIn ->
     fun_ st = VStr f -> Spec.has_dot f = true ->
     (eligible hint st <-> Spec.before_first_dot f = hint))
  /\
  (forall st, name_test st sid = Ok true <-> name_matches st sid)
  /\
  (forall pre st post,
     steps = pre ++ st :: post ->
     Forall (passed_over hint sid) pre ->
     eligible hint st -> name_matches st sid ->
     search_step steps (Some hint) sid = Ok (Some (length pre))).
Proof.
  split; [|split; [|split; [|split; [|split]]]].
  - intros i Hfound.
    apply search_from_found in Hfound as (st & _ & Hst & Hskip & Hname).
    rewrite Nat.sub_0_r in Hst.
    exists st. split; [exact Hst|]. split; [exact Hname|].
    apply module_test_eligible in Hskip; [|assumption].
    destruct Hskip as [Hrs | [Hk (f & Hf & Hm)]]; [left; exact Hrs|].
    right. split; [exact Hk|]. exists f. split; [exact Hf|].
    split; [exact Hm|].
    intros Hdot. rewrite <- slice_to_first_dot by assumption. exact Hm.
  - intros st. apply module_test_eligible, Hhint.
  - intros st. apply module_test_excluded, Hhint.
  - intros st f Hk Hf Hdot. unfold eligible. rewrite Hf.
    rewrite <- (slice_to_first_dot f Hdot). split.
    + intros [[[Hk' | Hk'] _] | [_ (f' & [= <-] & Hm)]];
        [destruct Hk as [Hk | Hk]; congruence ..| exact Hm].
    + intros Hm. right. split; [exact Hk|]. exists f. auto.
  - intros st. apply name_test_matches.
  - intros pre st post -> Hpre Hel Hname. unfold search_step.
    apply (search_from_hit pre post st (Some hint) sid 0).
    + eapply Forall_impl; [exact Hpre|]. cbv beta.
      intros st' [Hex | [Hel' Hn]].
      * left. apply module_test_excluded; assumption.
      * right. split; [apply module_test_eligible; assumption | exact Hn].
    + apply module_test_eligible; assumption.
    + apply name_test_matches, Hname.
Qed.

Lemma search_step_hint_witness :
  (module_skip (Some "salt") runner_step = Ok false /\
   module_skip (Some "salt") state_step = Ok false /\
   module_skip (Some "salt") salt_function_step = Ok false) /\
  (search_step mixed_plan (Some "salt") (VStr "advise") = Ok (Some 0) /\
   search_step mixed_plan (Some "salt") (VStr "packages") = Ok (Some 1) /\
   search_step mixed_plan (Some "salt") (VStr "reboot") = Ok (Some 2)) /\
  (module_skip (Some "advise") runner_step = Ok true /\
   module_skip (Some "ceph") state_step = Ok true /\
   module_skip (Some "cmd") salt_function_step = Ok true) /\
  (exists st,
     mixed_plan !! 2 = Some st /\ name_test st (VStr "reboot") = Ok true /\
     ((kind st = SaltRunner \/ kind st = SaltState) /\ "salt" = "salt"
      \/
      (kind st = SaltModule \/ kind st = SaltBuiltIn) /\
      exists f, fun_ st = VStr f /\ str_slice_to f (find_dot f) = "salt" /\
                (Spec.has_dot f = true -> Spec.before_first_dot f = "salt"))).
Proof.
  assert (Hsalt : "salt" <> "") by discriminate.
  assert (Hrun : eligible "salt" runner_step)
    by (left; split; [left|]; reflexivity).
  assert (Hsta : eligible "salt" state_step)
    by (left; split; [right|]; reflexivity).
  assert (Hfun : eligible "salt" salt_function_step).
  { right. split; [right; reflexivity|]. exists "salt.function".
    split; reflexivity. }
  destruct (search_step_hint mixed_plan "salt" (VStr "advise") Hsalt)
    as (_ & Hel & _ & _ & Hn0 & Hhit0).
  destruct (search_step_hint mixed_plan "salt" (VStr "packages") Hsalt)
    as (_ & _ & _ & _ & Hn1 & Hhit1).
  destruct (search_step_hint mixed_plan "salt" (VStr "reboot") Hsalt)
    as (Hfound & _ & _ & _ & Hn2 & Hhit2).
  split; [|split; [|split]].
  - repeat split; apply Hel; assumption.
  - split; [|split].
    + apply (Hhit0 [] runner_step [state_step; salt_function_step] eq_refl);
        [apply Forall_nil_2 | exact Hrun | apply Hn0; reflexivity].
    + apply (Hhit1 [runner_step] state_step [salt_function_step] eq_refl);
        [|exact Hsta | apply Hn1; reflexivity].
      apply Forall_cons_2; [|apply Forall_nil_2].
      right. split; [exact Hrun | reflexivity].
    + apply (Hhit2 [runner_step; state_step] salt_function_step [] eq_refl);
        [|exact Hfun | apply Hn2; reflexivity].
      apply Forall_cons_2; [|apply Forall_cons_2; [|apply Forall_nil_2]];
        right; (split; [assumption | reflexivity]).
  - split; [|split].
    + destruct (search_step_hint mixed_plan "advise" (VStr "advise")
                  ltac:(discriminate)) as (_ & _ & Hex & _).
      apply Hex. left. split; [left; reflexivity | discriminate].
    + destruct (search_step_hint mixed_plan "ceph" (VStr "packages")
                  ltac:(discriminate)) as (_ & _ & Hex & _).
      apply Hex. left. split; [right; reflexivity | discriminate].
    + destruct (search_step_hint mixed_plan "cmd" (VStr "reboot")
                  ltac:(discriminate)) as (_ & _ & Hex & _).
      apply Hex. right. split; [right; reflexivity|]. exists "salt.function".
      split; [reflexivity | discriminate].
  - apply (Hfound 2). reflexivity.
Defined.

(** ** Walking a rendered state file *)

Lemma traverse_items_include (t : salt_tree) (self : value -> M (list step))
    (state_name : string) (d1 d2 items : list (string * value)) :
  dict_get "include" d1 = dict_get "include" d2 ->
  forall result s,
    traverse_items t self state_name d1 items result s =
    traverse_items t self state_name d2 items result s.
Proof.
  intros Hinc. induction items as [|[key steps] items IH]; intros result s.
  - reflexivity.
  - simpl. unfold bind.
    assert (traverse_decl t self state_name d1 key steps result s =
            traverse_decl t self state_name d2 key steps result s) as ->.
    { unfold traverse_decl. rewrite Hinc. reflexivity. }
    destruct (traverse_decl t self state_name d2 key steps result s)
      as [[r|e] s']; [apply IH | reflexivity].
Qed.

Lemma dict_get_skip (k key : string) (body : value)
    (pre post : list (string * value)) :
  key <> k ->
  dict_get k (pre ++ (key, body) :: post) = dict_get k (pre ++ post).
Proof.
  intros Hne. induction pre as [|[k0 v0] pre IH]; simpl.
  - destruct (String.eqb_spec key k); [contradiction | reflexivity].
  - rewrite IH. reflexivity.
Qed.

Lemma traverse_decl_non_mapping (t : salt_tree)
    (self : value -> M (list step)) (state_name : string)
    (d : list (string * value)) (key : string) (body : value)
    (result : list step) (s : store) :
  key <> "include" -> (forall m, body <> VDict m) ->
  traverse_decl t self state_name d key body result s = (Ok result, s).
Proof.
  intros Hkey Hbody. unfold traverse_decl.
  destruct (String.eqb_spec key "include"); [contradiction|].
  destruct body; try reflexivity. exfalso. eapply Hbody. reflexivity.
Qed.

Lemma traverse_items_skip (t : salt_tree) (self : value -> M (list step))
    (state_name : string) (d pre post : list (string * value))
    (key : string) (body : value) :
  key <> "include" -> (forall m, body <> VDict m) ->
  forall result s,
    traverse_items t self state_name d (pre ++ (key, body) :: post) result s =
    traverse_items t self state_name d (pre ++ post) result s.
Proof.
  intros Hkey Hbody. induction pre as [|[k0 v0] pre IH]; intros result s.
  - simpl. unfold bind at 1.
    rewrite traverse_decl_non_mapping by assumption. reflexivity.
  - simpl. unfold bind.
    destruct (traverse_decl t self state_name d k0 v0 result s)
      as [[r|e] s']; [apply IH | reflexivity].
Qed.

(** C9: a declaration whose key is not ["include"] and whose body is not a
    mapping adds no step and raises nothing, and the walk over the rendered
    mapping goes as if the declaration were not there. *)
Theorem non_mapping_declaration_skipped (t : salt_tree)
    (self : value -> M (list step)) (state_name : string)
    (pre post : list (string * value)) (key : string) (body : value)
    (result : list step) (s : store)
    (Hkey : key <> "include")
    (Hbody : forall m, body <> VDict m) :
  traverse_decl t self state_name (pre ++ (key, body) :: post)
    key body result s = (Ok result, s) /\
  traverse_items t self state_name (pre ++ (key, body) :: post)
    (pre ++ (key, body) :: post) result s =
  traverse_items t self state_name (pre ++ post) (pre ++ post) result s.
Proof.
  split.
  - apply traverse_decl_non_mapping; assumption.
  - rewrite traverse_items_skip by assumption.
    apply traverse_items_include, dict_get_skip, Hkey.
Qed.

Lemma non_mapping_declaration_skipped_witness :
  let self := traverse_state demo_tree true true 3 in
  traverse_decl demo_tree self "ceph.stage.demo.sub" demo_sub
    "junk" (VStr "scalar") [] empty_store = (Ok [], empty_store) /\
  traverse_items demo_tree self "ceph.stage.demo.sub" demo_sub demo_sub
    [] empty_store =
  traverse_items demo_tree self "ceph.stage.demo.sub"
    [("C", VDict [("module.run", VList [VDict [("name", VStr "m.f")]])])]
    [("C", VDict [("module.run", VList [VDict [("name", VStr "m.f")]])])]
    [] empty_store.
Proof.
  intros self.
  apply (non_mapping_declaration_skipped demo_tree self "ceph.stage.demo.sub"
           [("C", VDict [("module.run", VList [VDict [("name", VStr "m.f")]])])]
           [] "junk" (VStr "scalar") [] empty_store).
  - discriminate.
  - intros m. discriminate.
Defined.

(** ** The cache *)

Arguments startswith : simpl never.
Arguments cache_file_path : simpl never.

(** One call of [_traverse_state] on a stage name, step by step. *)
Lemma traverse_state_unfold (t : salt_tree) (stages_only cache : bool)
    (n : nat) (X : string) (s : store) :
  traverse_state t stages_only cache (S n) (VStr X) s =
  if stages_only && negb (startswith "ceph.stage" X) then (Ok [], s)
  else
    match (if cache
           then cache_dir s !! cache_file_path t stages_only (VStr X)
           else None) with
    | Some (Pickled plan) => (Ok plan, s)
    | Some Garbage => (Raise UnpicklingError, s)
    | None =>
        match expand t (traverse_state t stages_only cache n) (VStr X) s with
        | (Ok result, s1) =>
            (Ok result,
             if cache
             then {| cache_dir :=
                       <[cache_file_path t stages_only (VStr X)
                         := Pickled result]> (cache_dir s1);
                     render_log := render_log s1 |}
             else s1)
        | (Raise e, s1) => (Raise e, s1)
        end
    end.
Proof.
  cbn [traverse_state]. unfold traverse_state_body, bind, lift. cbn [as_str].
  destruct stages_only; cbn [andb];
    [destruct (startswith "ceph.stage" X); cbn [negb]; [|reflexivity]|];
    (destruct cache;
     [ unfold cache_read;
       destruct (cache_dir s !! _) as [[plan|]|]; try reflexivity
     | unfold ret at 1 ];
     destruct (expand _ _ _ s) as [[result|e] s1]; reflexivity).
Qed.

(** C4: when a first call [parse_state_steps(X, True, True)] returns a
    plan, the same call made again returns the same plan (same steps, same
    dependency lists) and leaves the store as it was: the renderer is not
    called, the render log does not grow. *)
Theorem cached_plan_idempotent (t : salt_tree) (depth : nat) (X : string)
    (s s' : store) (plan : list step)
    (Hfirst : parse_state_steps t depth (VStr X) true true s = (Ok plan, s')) :
  parse_state_steps t depth (VStr X) true true s' = (Ok plan, s') /\
  render_log (snd (parse_state_steps t depth (VStr X) true true s'))
    = render_log s'.
Proof.
  assert (Hagain :
            parse_state_steps t depth (VStr X) true true s' = (Ok plan, s')).
  { unfold parse_state_steps, bind in *.
    destruct (traverse_state t true true depth (VStr X) s)
      as [[result|e] s1] eqn:Htrav; [|discriminate].
    unfold lift in Hfirst.
    destruct (process_requisites result) as [linked|e] eqn:Hlink;
      [|discriminate].
    injection Hfirst as <- <-.
    assert (Hsecond :
              traverse_state t true true depth (VStr X) s1 = (Ok result, s1)).
    { destruct depth as [|n]; [discriminate|].
      rewrite traverse_state_unfold in Htrav |- *.
      destruct (true && negb (startswith "ceph.stage" X)).
      - injection Htrav as <- <-. reflexivity.
      - destruct (cache_dir s !! cache_file_path t true (VStr X))
          as [[cached|]|] eqn:Hentry.
        + injection Htrav as <- <-. rewrite Hentry. reflexivity.
        + discriminate.
        + destruct (expand t (traverse_state t true true n) (VStr X) s)
            as [[r|e] s2]; [|discriminate].
          injection Htrav as <- <-. cbn [cache_dir].
          rewrite lookup_insert_eq. reflexivity. }
    rewrite Hsecond. unfold lift. rewrite Hlink. reflexivity. }
  split; [exact Hagain | rewrite Hagain; reflexivity].
Qed.

Lemma cached_plan_idempotent_witness :
  let first :=
    parse_state_steps demo_tree 3 (VStr "ceph.stage.demo") true true
      empty_store in
  fst first = Ok demo_plan /\
  render_log (snd first) = ["/srv/salt/ceph/stage/demo/init.sls";
                            "/srv/salt/ceph/stage/demo/sub.sls"] /\
  parse_state_steps demo_tree 3 (VStr "ceph.stage.demo") true true (snd first)
    = (Ok demo_plan, snd first) /\
  render_log
    (snd (parse_state_steps demo_tree 3 (VStr "ceph.stage.demo") true true
            (snd first)))
    = render_log (snd first).
Proof.
  intros first.
  split; [vm_compute; reflexivity|].
  split; [vm_compute; reflexivity|].
  apply (cached_plan_idempotent demo_tree 3 "ceph.stage.demo" empty_store).
  vm_compute. reflexivity.
Defined.

Section simulation.

Variable t : salt_tree.
Variable R : store -> store -> Prop.
Hypothesis R_logged :
  forall s1 s2 path, R s1 s2 -> R (logged s1 path) (logged s2 path).

Lemma sim_ret {A} (a : A) : sim R (ret a) (ret a).
Proof. intros s1 s2 b s1' HR [= <- <-]. eauto. Qed.

Lemma sim_raise {A} (e : exn) (g : M A) : sim R (raise e) g.
Proof. intros s1 s2 b s1' _ [=]. Qed.

Lemma sim_lift {A} (r : res A) : sim R (lift r) (lift r).
Proof. intros s1 s2 b s1' HR [= -> <-]. eauto. Qed.

Lemma sim_bind {A B} (f g : M A) (k1 k2 : A -> M B) :
  sim R f g -> (forall a, sim R (k1 a) (k2 a)) ->
  sim R (bind f k1) (bind g k2).
Proof.
  intros Hfg Hk s1 s2 b s1' HR. unfold bind.
  destruct (f s1) as [[a|e] s1m] eqn:Hf; [|discriminate].
  destruct (Hfg _ _ _ _ HR Hf) as (s2m & -> & HRm).
  apply Hk, HRm.
Qed.

Lemma sim_render (path : string) :
  sim R (SLSRenderer_render t path) (SLSRenderer_render t path).
Proof.
  intros s1 s2 v s1' HR. unfold SLSRenderer_render. intros [= Hv <-].
  rewrite Hv. eexists. split; [reflexivity|]. apply (R_logged _ _ path HR).
Qed.

Variables self1 self2 : value -> M (list step).
Hypothesis Hself : forall v, sim R (self1 v) (self2 v).

Lemma sim_includes (state_name : string) (incs : list value) :
  forall result,
    sim R (traverse_includes t self1 state_name incs result)
          (traverse_includes t self2 state_name incs result).
Proof.
  induction incs as [|inc incs IH]; intros result; cbn [traverse_includes].
  - apply sim_ret.
  - apply sim_bind; [apply sim_lift|]. intros name.
    apply sim_bind; [apply Hself|]. intros sub. apply IH.
Qed.

Lemma sim_step (key fn : string) (args : value) (result : list step) :
  sim R (traverse_step self1 key fn args result)
        (traverse_step self2 key fn args result).
Proof.
  unfold traverse_step.
  repeat match goal with
         | |- sim R (if ?b then _ else _) _ => destruct b
         | |- sim R (bind (lift _) _) _ =>
             apply sim_bind; [apply sim_lift | intros ?]
         | |- sim R (bind (self1 _) _) _ =>
             apply sim_bind; [apply Hself | intros ?]
         | |- sim R (ret _) _ => apply sim_ret
         end.
Qed.

Lemma sim_steps (key : string) (steps : list (string * value)) :
  forall result,
    sim R (traverse_steps self1 key steps result)
          (traverse_steps self2 key steps result).
Proof.
  induction steps as [|[fn args] steps IH]; intros result;
    cbn [traverse_steps].
  - apply sim_ret.
  - apply sim_bind; [apply sim_step | intros r; apply IH].
Qed.

Lemma sim_decl (state_name : string) (d : list (string * value))
    (key : string) (steps : value) (result : list step) :
  sim R (traverse_decl t self1 state_name d key steps result)
        (traverse_decl t self2 state_name d key steps result).
Proof.
  unfold traverse_decl. destruct (String.eqb key "include").
  - destruct (dict_get "include" d); [|apply sim_raise].
    apply sim_bind; [apply sim_lift | intros incs; apply sim_includes].
  - destruct steps; try apply sim_ret. apply sim_steps.
Qed.

Lemma sim_items (state_name : string) (d items : list (string * value)) :
  forall result,
    sim R (traverse_items t self1 state_name d items result)
          (traverse_items t self2 state_name d items result).
Proof.
  induction items as [|[key steps] items IH]; intros result;
    cbn [traverse_items].
  - apply sim_ret.
  - apply sim_bind; [apply sim_decl | intros r; apply IH].
Qed.

Lemma sim_expand (state_name : value) :
  sim R (expand t self1 state_name) (expand t self2 state_name).
Proof.
  unfold expand.
  apply sim_bind; [apply sim_lift | intros name].
  apply sim_bind; [apply sim_lift | intros path].
  apply sim_bind; [apply sim_render | intros state_dict].
  destruct state_dict; try apply sim_raise. apply sim_items.
Qed.

Lemma sim_body_nocache (stages_only : bool) (state_name : value) :
  sim R (traverse_state_body t stages_only false self1 state_name)
        (traverse_state_body t stages_only false self2 state_name).
Proof.
  unfold traverse_state_body.
  apply sim_bind; [apply sim_lift | intros outside].
  destruct outside; [apply sim_ret|].
  apply sim_bind; [apply sim_ret | intros cached].
  destruct cached; [apply sim_ret|].
  apply sim_bind; [apply sim_expand | intros result].
  apply sim_bind; [apply sim_ret | intros _; apply sim_ret].
Qed.

End simulation.

(** Without the cache, more depth changes nothing once a plan is
    returned, and neither does the store the expansion starts from. *)
Lemma traverse_nocache_mono (t : salt_tree) (stages_only : bool)
    (d d' : nat) (v : value) :
  d <= d' ->
  sim (fun _ _ => True) (traverse_state t stages_only false d v)
                        (traverse_state t stages_only false d' v).
Proof.
  revert d' v. induction d as [|d IH]; intros d' v Hle.
  - apply sim_raise.
  - destruct d' as [|d']; [lia|]. cbn [traverse_state].
    apply sim_body_nocache; [auto|].
    intros w. apply IH. lia.
Qed.

Lemma traverse_nocache_deterministic (t : salt_tree) (stages_only : bool)
    (d1 d2 : nat) (v : value) (s1 s2 : store) (p1 p2 : list step) :
  fst (traverse_state t stages_only false d1 v s1) = Ok p1 ->
  fst (traverse_state t stages_only false d2 v s2) = Ok p2 ->
  p1 = p2.
Proof.
  intros H1 H2.
  destruct (traverse_state t stages_only false d1 v s1) as [r1 s1'] eqn:E1.
  destruct (traverse_state t stages_only false d2 v s2) as [r2 s2'] eqn:E2.
  simpl in H1, H2. subst r1 r2.
  destruct (traverse_nocache_mono t stages_only d1 (Nat.max d1 d2) v
              ltac:(lia) s1 s1 p1 s1' I E1) as (sa & Ea & _).
  destruct (traverse_nocache_mono t stages_only d2 (Nat.max d1 d2) v
              ltac:(lia) s2 s1 p2 s2' I E2) as (sb & Eb & _).
  congruence.
Qed.

Lemma string_length_app (a b : string) :
  String.length (a +:+ b) = String.length a + String.length b.
Proof. induction a as [|c a IH]; simpl; [reflexivity | rewrite IH; reflexivity]. Qed.

Lemma string_app_inv_tail (a b c : string) : a +:+ c = b +:+ c -> a = b.
Proof.
  revert b. induction a as [|x a IH]; intros [|y b] H.
  - reflexivity.
  - apply (f_equal String.length) in H.
    rewrite !string_length_app in H. simpl in H. lia.
  - apply (f_equal String.length) in H.
    rewrite !string_length_app in H. simpl in H. lia.
  - injection H as -> H. f_equal. apply IH, H.
Qed.

(** Two stage names are never filed under one cache path. *)
Lemma cache_file_path_inj (t : salt_tree) (stages_only : bool)
    (a b : string) :
  cache_file_path t stages_only (VStr a) = cache_file_path t stages_only (VStr b)
  -> a = b.
Proof.
  unfold cache_file_path. cbn [py_format].
  destruct stages_only; simpl; intros [= H];
    apply (string_app_inv_tail a b ".bin"), H.
Qed.

(** Expansion without the cache never returns for a name that is not a
    string. *)
Lemma traverse_nocache_name (t : salt_tree) (stages_only : bool) (d : nat)
    (v : value) (s s' : store) (plan : list step) :
  traverse_state t stages_only false d v s = (Ok plan, s') ->
  exists X, v = VStr X.
Proof.
  destruct v; eauto; destruct d as [|d]; try discriminate;
    cbn [traverse_state]; unfold traverse_state_body, bind, lift, expand;
    destruct stages_only; discriminate.
Qed.

Lemma sound_cache_logged (t : salt_tree) (stages_only : bool) (s : store)
    (path : string) :
  sound_cache t stages_only s -> sound_cache t stages_only (logged s path).
Proof. intros H. exact H. Qed.

(** With a sound cache, expansion with the cache returns what expansion
    without it returns, and leaves the cache sound. *)
Lemma traverse_cached_sim (t : salt_tree) (stages_only : bool) (d : nat) :
  forall v,
    sim (fun _ s2 => sound_cache t stages_only s2)
        (traverse_state t stages_only false d v)
        (traverse_state t stages_only true d v).
Proof.
  induction d as [|d IH]; intros v; [apply sim_raise|].
  intros s1 s2 plan s1' Hsound Hrun.
  destruct (traverse_nocache_name _ _ _ _ _ _ _ Hrun) as [X ->].
  pose proof Hrun as Hfull.
  rewrite traverse_state_unfold in Hrun |- *.
  destruct (stages_only && negb (startswith "ceph.stage" X)).
  { injection Hrun as <- <-. eauto. }
  destruct (expand t (traverse_state t stages_only false d) (VStr X) s1)
    as [[r|e] s1m] eqn:Hexp; [|discriminate].
  injection Hrun as -> <-.
  destruct (cache_dir s2 !! cache_file_path t stages_only (VStr X))
    as [f|] eqn:Hentry.
  - destruct (Hsound X f Hentry) as (p & dp & s0 & -> & Hp).
    assert (p = plan) as ->.
    { eapply traverse_nocache_deterministic; [exact Hp|].
      rewrite Hfull. reflexivity. }
    eauto.
  - destruct (sim_expand t (fun _ s2 => sound_cache t stages_only s2)
                (fun s1 s2 path H => sound_cache_logged t stages_only s2 path H)
                _ _ IH (VStr X) s1 s2 plan s1m Hsound Hexp)
      as (s2m & -> & Hsound').
    eexists. split; [reflexivity|].
    intros name f. cbn [cache_dir].
    destruct (decide (cache_file_path t stages_only (VStr X)
                      = cache_file_path t stages_only (VStr name))) as [Heq|Hne].
    + rewrite Heq, lookup_insert_eq. intros [= <-].
      apply cache_file_path_inj in Heq as <-.
      exists plan, (S d), s1. split; [reflexivity|].
      rewrite Hfull. reflexivity.
    + rewrite lookup_insert_ne by assumption. apply Hsound'.
Qed.




(** ** The requisite pass *)

Section for_each_facts.

Context {A : Type}.
Variable body : A -> list step -> res (list step).
Variable l : list A.
Variable P : list step -> Prop.
Hypothesis body_keeps :
  forall x r r', In x l -> P r -> body x r = Ok r' -> P r'.

Lemma for_each_keeps (r r' : list step) :
  P r -> for_each body l r = Ok r' -> P r'.
Proof.
  revert r body_keeps. induction l as [|x l0 IH]; intros r Hkeeps Hr; simpl.
  - intros [= <-]. exact Hr.
  - destruct (body x r) as [r1|e] eqn:Hx; [|discriminate].
    apply IH.
    + intros y q q' Hy. apply Hkeeps. right. exact Hy.
    + eapply Hkeeps; [left; reflexivity | exact Hr | exact Hx].
Qed.

Lemma for_each_raises (Q : exn -> Prop) (r : list step) (e : exn) :
  (forall x q e', In x l -> P q -> body x q = Raise e' -> Q e') ->
  P r -> for_each body l r = Raise e -> Q e.
Proof.
  revert r body_keeps. induction l as [|x l0 IH]; intros r Hkeeps HQ Hr; simpl.
  - discriminate.
  - destruct (body x r) as [r1|e1] eqn:Hx.
    + apply IH.
      * intros y q q' Hy. apply Hkeeps. right. exact Hy.
      * intros y q e' Hy. apply HQ. right. exact Hy.
      * eapply Hkeeps; [left; reflexivity | exact Hr | exact Hx].
    + intros [= <-]. eapply HQ; [left; reflexivity | exact Hr | exact Hx].
Qed.

Lemma for_each_fatal (x0 : A) (r : list step) :
  In x0 l ->
  (forall q, P q -> exists e, body x0 q = Raise e) ->
  P r -> exists e, for_each body l r = Raise e.
Proof.
  revert r body_keeps. induction l as [|x l0 IH]; intros r Hkeeps Hin Hx0 Hr;
    simpl.
  - destruct Hin.
  - destruct (body x r) as [r1|e1] eqn:Hx; [|eauto].
    destruct Hin as [->|Hin].
    + destruct (Hx0 r Hr) as [e He]. congruence.
    + apply IH; [|assumption|assumption|].
      * intros y q q' Hy. apply Hkeeps. right. exact Hy.
      * eapply Hkeeps; [left; reflexivity | exact Hr | exact Hx].
Qed.

End for_each_facts.

(** The search reads the kind, the description, the arguments and the
    [fun] of the steps, not their dependencies. *)
Lemma search_from_unlinked (steps : list step) (mod_name : option string)
    (sid : value) (i : nat) :
  search_from i (map unlinked steps) mod_name sid
  = search_from i steps mod_name sid.
Proof.
  revert i. induction steps as [|st steps IH]; intros i; [reflexivity|].
  cbn [map search_from].
  change (module_skip mod_name (unlinked st)) with (module_skip mod_name st).
  change (name_test (unlinked st) sid) with (name_test st sid).
  rewrite !IH. reflexivity.
Qed.

Lemma search_step_same (p q : list step) (mod_name : option string)
    (sid : value) :
  map unlinked p = map unlinked q ->
  search_step p mod_name sid = search_step q mod_name sid.
Proof.
  intros H. unfold search_step.
  rewrite <- (search_from_unlinked p), <- (search_from_unlinked q), H.
  reflexivity.
Qed.

Lemma unlinked_add_dep (directive : string) (j : nat) (st : step) :
  unlinked (add_dep directive j st) = unlinked st.
Proof.
  unfold add_dep.
  destruct (existsb _ _); [reflexivity|].
  destruct (String.eqb directive "onfail"); reflexivity.
Qed.

Lemma map_unlinked_alter (directive : string) (j i : nat) (p : list step) :
  map unlinked (alter (add_dep directive j) i p) = map unlinked p.
Proof.
  revert i. induction p as [|st p IH]; intros [|i]; simpl; try reflexivity.
  - rewrite unlinked_add_dep. reflexivity.
  - f_equal. apply IH.
Qed.

(** What the search leaves of a lookup nothing matches. *)
Lemma search_step_unmatched (plan : list step) (mod_name : option string)
    (sid : value) (j : nat) :
  Forall (fun st => ~ matches mod_name sid st) plan ->
  search_step plan mod_name sid <> Ok (Some j).
Proof.
  intros Hnone Hfound.
  apply search_from_found in Hfound as (st & _ & Hst & Hskip & Hname).
  rewrite Forall_forall in Hnone.
  apply (Hnone st); [|split; assumption].
  apply list_elem_of_lookup. eauto.
Qed.

Section linking.

Variable plan : list step.

Local Abbreviation same := (same_steps plan).

Lemma link_one_keeps i directive mod_name sid r r' :
  same r -> link_one i directive mod_name sid r = Ok r' -> same r'.
Proof.
  unfold link_one, same_steps. intros Hr.
  destruct (search_step r mod_name sid) as [[j|]|]; try discriminate.
  intros [= <-]. rewrite map_unlinked_alter. exact Hr.
Qed.

Lemma link_one_fatal i directive mod_name sid r :
  Forall (fun st => ~ matches mod_name sid st) plan ->
  same r -> exists e, link_one i directive mod_name sid r = Raise e.
Proof.
  intros Hnone Hr. unfold link_one.
  rewrite (search_step_same r plan) by exact Hr.
  destruct (search_step plan mod_name sid) as [[j|]|] eqn:Hs; eauto.
  exfalso. eapply search_step_unmatched; eauto.
Qed.

Lemma link_pairs_keeps i directive items r r' :
  same r -> link_pairs i directive items r = Ok r' -> same r'.
Proof.
  apply for_each_keeps. intros item q q' _. apply link_one_keeps.
Qed.

Lemma link_req_keeps i directive req r r' :
  same r -> link_req i directive req r = Ok r' -> same r'.
Proof.
  unfold link_req. destruct req;
    first [apply link_pairs_keeps | apply link_one_keeps].
Qed.

Lemma process_requisite_directive_keeps i st directive r r' :
  same r -> process_requisite_directive i st directive r = Ok r' -> same r'.
Proof.
  unfold process_requisite_directive. intros Hr.
  destruct (get_arg (args st) directive) as [req|]; [|discriminate].
  destruct (truthy req); [|intros [= <-]; exact Hr].
  revert Hr. apply for_each_keeps. intros entry q q' _. apply link_req_keeps.
Qed.

Lemma process_step_keeps ist r r' :
  same r -> process_step ist r = Ok r' -> same r'.
Proof.
  apply for_each_keeps. intros directive q q' _.
  apply process_requisite_directive_keeps.
Qed.

Lemma process_requisite_directive_fatal i st directive req hint sid r :
  get_arg (args st) directive = Ok req ->
  In (hint, sid) (declared_lookups req) ->
  Forall (fun st' => ~ matches hint sid st') plan ->
  same r -> exists e, process_requisite_directive i st directive r = Raise e.
Proof.
  intros Hreq Hdecl Hnone Hr. unfold process_requisite_directive.
  rewrite Hreq. unfold declared_lookups in Hdecl.
  destruct (truthy req); [|destruct Hdecl].
  apply in_flat_map in Hdecl as (entry & Hentry & Hlook).
  eapply for_each_fatal with (P := same) (x0 := entry); try assumption.
  - intros x q q' _. apply link_req_keeps.
  - intros q Hq. unfold link_req.
    destruct entry as [| | | | |d];
      try (destruct Hlook as [[= <- <-]|[]]; apply link_one_fatal; assumption).
    apply in_map_iff in Hlook as (item & [= <- <-] & Hitem).
    eapply for_each_fatal with (P := same) (x0 := item); try assumption.
    + intros x p p' _. apply link_one_keeps.
    + intros p Hp. apply link_one_fatal; assumption.
Qed.

Lemma process_requisites_fatal i st directive req hint sid :
  plan !! i = Some st ->
  In directive requisite_directives ->
  get_arg (args st) directive = Ok req ->
  In (hint, sid) (declared_lookups req) ->
  Forall (fun st' => ~ matches hint sid st') plan ->
  exists e, process_requisites plan = Raise e.
Proof.
  intros Hst Hdir Hreq Hdecl Hnone. unfold process_requisites.
  eapply for_each_fatal with (P := same) (x0 := (i, st)).
  - intros x q q' _. apply process_step_keeps.
  - apply list_elem_of_In, elem_of_lookup_imap. eauto.
  - intros q Hq. unfold process_step. cbn [fst snd].
    eapply for_each_fatal with (P := same) (x0 := directive); try assumption.
    + intros x p p' _. apply process_requisite_directive_keeps.
    + intros p Hp. eapply process_requisite_directive_fatal; eassumption.
  - reflexivity.
Qed.

End linking.

Lemma args_with_dicts (key : string) (l : list value) :
  forallb is_dict l = true ->
  exists r, args_with key l = Ok r /\
            Forall (fun a => exists v, py_getitem key a = Ok v) r.
Proof.
  induction l as [|a l IH]; simpl; intros Hl.
  - eexists. split; [reflexivity | constructor].
  - apply andb_true_iff in Hl as [Ha Hl].
    destruct (IH Hl) as (r & -> & Hr).
    destruct a as [| | | | |d]; try discriminate. simpl.
    destruct (dict_get key d) as [v|] eqn:Hv.
    + eexists. split; [reflexivity|]. constructor; [|exact Hr].
      exists v. simpl. rewrite Hv. reflexivity.
    + eauto.
Qed.

Lemma get_arg_readable (a : value) (key : string) :
  readable_args a = true -> exists v, get_arg a key = Ok v.
Proof.
  destruct a as [| | | |l|d]; try discriminate; simpl; intros Ha.
  - destruct (args_with_dicts key l Ha) as (r & -> & Hr).
    destruct r as [|x r]; [eauto|].
    inversion Hr as [|? ? [v Hv] _]; subst. eauto.
  - destruct (dict_get key d); eauto.
Qed.

Lemma search_from_readable (steps : list step) (mod_name : option string)
    (sid : value) (i : nat) :
  forallb readable steps = true ->
  exists found, search_from i steps mod_name sid = Ok found.
Proof.
  revert i. induction steps as [|st steps IH]; intros i; simpl; [eauto|].
  intros H. apply andb_true_iff in H as [Hst Hsteps].
  unfold readable in Hst. apply andb_true_iff in Hst as [Hargs Hfun].
  assert (exists skip, module_skip mod_name st = Ok skip) as [skip ->].
  { unfold module_skip, step_mod. destruct mod_name as [m|]; [|eauto].
    destruct (truthy (VStr m)); [|eauto].
    destruct (kind st); eauto;
      destruct (fun_ st); try discriminate; simpl; eauto. }
  destruct skip; [apply IH, Hsteps|].
  unfold name_test.
  destruct (get_arg_readable (args st) "name" Hargs) as [v ->].
  destruct (_ || _); [eauto | apply IH, Hsteps].
Qed.

Lemma forallb_readable_same (p q : list step) :
  map unlinked p = map unlinked q ->
  forallb readable p = forallb readable q.
Proof.
  revert q. induction p as [|a p IH]; intros [|b q] H; try discriminate.
  - reflexivity.
  - simpl in H.
    pose proof (f_equal (hd (unlinked a)) H) as Hab.
    pose proof (f_equal (@tl step) H) as Hpq.
    simpl in Hab, Hpq |- *. rewrite (IH q Hpq). f_equal.
    change (readable (unlinked a) = readable (unlinked b)).
    rewrite Hab. reflexivity.
Qed.

Section linking_errors.

Variable plan : list step.
Hypothesis plan_readable : forallb readable plan = true.

Local Abbreviation same := (same_steps plan).

Lemma link_one_raises i directive mod_name sid r e :
  same r -> link_one i directive mod_name sid r = Raise e ->
  e = AssertionError.
Proof.
  intros Hr. unfold link_one.
  destruct (search_from_readable r mod_name sid 0) as [found Hfound].
  { rewrite (forallb_readable_same r plan Hr). exact plan_readable. }
  unfold search_step. rewrite Hfound.
  destruct found; [discriminate|]. intros [= <-]. reflexivity.
Qed.

Lemma link_req_raises i directive req r e :
  same r -> link_req i directive req r = Raise e -> e = AssertionError.
Proof.
  unfold link_req. destruct req; try apply link_one_raises.
  apply for_each_raises with (P := same) (Q := fun e => e = AssertionError).
  - intros x q q' _. apply link_one_keeps.
  - intros x q e' _. apply link_one_raises.
Qed.

Lemma process_requisite_directive_raises i st directive r e :
  In st plan ->
  same r -> process_requisite_directive i st directive r = Raise e ->
  e = AssertionError.
Proof.
  intros Hst Hr. unfold process_requisite_directive.
  destruct (get_arg_readable (args st) directive) as [req ->].
  { rewrite forallb_forall in plan_readable.
    specialize (plan_readable st Hst). unfold readable in plan_readable.
    apply andb_true_iff in plan_readable as [H _]. exact H. }
  destruct (truthy req); [|discriminate].
  revert Hr. apply for_each_raises with (P := same) (Q := fun e => e = AssertionError).
  - intros x q q' _. apply link_req_keeps.
  - intros x q e' _. apply link_req_raises.
Qed.

Lemma process_requisites_raises e :
  process_requisites plan = Raise e -> e = AssertionError.
Proof.
  unfold process_requisites.
  apply for_each_raises with (P := same) (Q := fun e => e = AssertionError); [| |reflexivity].
  - intros x q q' _. apply process_step_keeps.
  - intros [i st] q e' Hin Hq. unfold process_step. cbn [fst snd].
    revert Hq. apply for_each_raises with (P := same) (Q := fun e => e = AssertionError).
    + intros x p p' _. apply process_requisite_directive_keeps.
    + intros x p e'' _. apply process_requisite_directive_raises.
      apply list_elem_of_In, elem_of_lookup_imap in Hin as (j & y & [= -> ->] & Hj).
      apply list_elem_of_In, list_elem_of_lookup. eauto.
Qed.

End linking_errors.

(** On every plan: when a step declares, under one of the four
    directives, a lookup that no step of the plan matches,
    [parse_state_steps] raises and returns no plan; and when the
    arguments and the [fun] of the steps are readable (mappings or lists
    of mappings, a string for the [fun] of module and built-in steps) the
    exception is the [AssertionError] of [assert req_step]. *)
Theorem unresolvable_requisite_fatal (t : salt_tree) (depth : nat)
    (state_name : value) (stages_only cache : bool) (s s' : store)
    (plan : list step) (i : nat) (st : step) (directive : string)
    (req : value) (hint : option string) (sid : value)
    (Hplan : traverse_state t stages_only cache depth state_name s
             = (Ok plan, s'))
    (Hst : plan !! i = Some st)
    (Hdir : In directive requisite_directives)
    (Hreq : get_arg (args st) directive = Ok req)
    (Hdecl : In (hint, sid) (declared_lookups req))
    (Hnone : Forall (fun st' => ~ matches hint sid st') plan) :
  exists e,
    parse_state_steps t depth state_name stages_only cache s = (Raise e, s') /\
    (forallb readable plan = true -> e = AssertionError).
Proof.
  destruct (process_requisites_fatal plan i st directive req hint sid
              Hst Hdir Hreq Hdecl Hnone) as [e He].
  exists e. split.
  - unfold parse_state_steps, bind, lift. rewrite Hplan, He. reflexivity.
  - intros Hreadable. eapply process_requisites_raises; eassumption.
Qed.

(** The stage [ceph.stage.orphan], whose only step requires
    [nonexistent_step]: the call fails with [AssertionError]. *)
Example unresolvable_requisite_orphan :
  exists e,
    parse_state_steps orphan_tree 2 (VStr "ceph.stage.orphan") true false
      empty_store
    = (Raise e, logged empty_store "/srv/salt/ceph/stage/orphan.sls") /\
    (forallb readable [orphan_step] = true -> e = AssertionError).
Proof.
  apply (unresolvable_requisite_fatal orphan_tree 2 (VStr "ceph.stage.orphan")
           true false empty_store
           (logged empty_store "/srv/salt/ceph/stage/orphan.sls")
           [orphan_step] 0 orphan_step "require" (VStr "nonexistent_step")
           None (VStr "nonexistent_step")).
  - vm_compute. reflexivity.
  - reflexivity.
  - simpl. auto.
  - reflexivity.
  - simpl. auto.
  - repeat constructor. intros [_ H]. vm_compute in H. discriminate.
Defined.

(** C3 (the code at a failing input): in the plan of [ceph.stage.nameless]
    the command [B] requires [cmd: nonexistent_step], a pair that no step
    of the plan matches.  The call returns no plan, but what it raises is
    not the [AssertionError] of [assert req_step]: the search first meets
    the [module.run] step, whose [fun] is [None] for want of a [name]
    argument, and [step.fun.find] raises [AttributeError]. *)
Theorem unresolvable_requisite_nameless :
  fst (traverse_state orphan_tree true false 2 (VStr "ceph.stage.nameless")
         empty_store) = Ok [nameless_step; hinted_step] /\
  get_arg (args hinted_step) "require"
    = Ok (VList [VDict [("cmd", VStr "nonexistent_step")]]) /\
  In (Some "cmd", VStr "nonexistent_step")
     (declared_lookups (VList [VDict [("cmd", VStr "nonexistent_step")]])) /\
  Forall (fun st => ~ matches (Some "cmd") (VStr "nonexistent_step") st)
         [nameless_step; hinted_step] /\
  step_mod nameless_step = Raise AttributeError /\
  fst (parse_state_steps orphan_tree 2 (VStr "ceph.stage.nameless") true false
         empty_store) = Raise AttributeError.
Proof.
  split; [reflexivity|]. split; [reflexivity|]. split; [left; reflexivity|].
  split.
  - repeat constructor.
    + intros [H _]. vm_compute in H. discriminate.
    + intros [_ H]. vm_compute in H. discriminate.
  - split; reflexivity.
Qed.

(** * Further properties *)

(** ** Include resolution: edge cases *)

(** X1: an include reference that does not start with a dot is appended
    to the whole parent identifier, whether the parent is a directory or
    a leaf: no segment of the parent is dropped. *)
Theorem include_without_dots (t : salt_tree) (parent_state include : string)
    (Hdots : Spec.leading_dots include = 0) :
  gen_state_name_from_include t parent_state (VStr include)
  = Ok (parent_state +:+ "." +:+ include).
Proof.
  unfold gen_state_name_from_include. cbn [py_iter slice_from py_format].
  rewrite count_dots_chars, Hdots. cbn [str_drop Nat.add].
  destruct (state_name_is_dir t parent_state); reflexivity.
Qed.

Lemma include_without_dots_witness :
  gen_state_name_from_include flat_tree "ceph.stage.4" (VStr "ceph.iscsi")
  = Ok "ceph.stage.4.ceph.iscsi".
Proof.
  apply (include_without_dots flat_tree "ceph.stage.4" "ceph.iscsi").
  reflexivity.
Defined.

(** X2: an include reference that ascends past the first segment of the
    parent raises nothing: the parent is cut down to the empty string and
    the result is a dot followed by the name. *)
Theorem include_above_root (t : salt_tree) (parent_state include : string)
    (Hlevels :
       length (split_dots parent_state)
       < Spec.leading_dots include
         + (if state_name_is_dir t parent_state then 0 else 1)) :
  gen_state_name_from_include t parent_state (VStr include)
  = Ok ("." +:+ Spec.strip_dots include).
Proof.
  unfold gen_state_name_from_include. cbn [py_iter slice_from py_format].
  rewrite count_dots_chars, Nat.add_0_l, str_drop_leading_dots.
  pose proof (split_dots_nonempty parent_state) as Hne.
  assert (0 < length (split_dots parent_state)) as Hpos.
  { destruct (split_dots parent_state); [contradiction | simpl; lia]. }
  set (d := if negb (state_name_is_dir t parent_state)
            then Spec.leading_dots include + 1 else Spec.leading_dots include).
  assert (Hd : length (split_dots parent_state) < d).
  { subst d. destruct (state_name_is_dir t parent_state); simpl; lia. }
  destruct (Nat.ltb_spec 1 d) as [_|Hle]; [|lia].
  unfold drop_last.
  replace (length (split_dots parent_state) - (d - 1)) with 0 by lia.
  reflexivity.
Qed.

Lemma include_above_root_witness :
  gen_state_name_from_include flat_tree "ceph.stage" (VStr "...iscsi")
  = Ok ".iscsi".
Proof.
  apply (include_above_root flat_tree "ceph.stage" "...iscsi").
  vm_compute. lia.
Defined.

(** X3: a leaf parent resolves an include reference as a directory parent
    of the same name resolves the reference with one more leading dot. *)
Theorem include_leaf_as_directory (t1 t2 : salt_tree)
    (parent_state include : string)
    (Hleaf : state_name_is_dir t1 parent_state = false)
    (Hdir : state_name_is_dir t2 parent_state = true) :
  gen_state_name_from_include t1 parent_state (VStr include)
  = gen_state_name_from_include t2 parent_state (VStr (String dot include)).
Proof.
  unfold gen_state_name_from_include. cbn [py_iter slice_from py_format].
  rewrite !count_dots_chars, !Nat.add_0_l, Hleaf, Hdir.
  cbn [negb Spec.leading_dots]. rewrite Ascii.eqb_refl.
  cbn [str_drop]. rewrite Nat.add_1_r. reflexivity.
Qed.

Lemma include_leaf_as_directory_witness :
  gen_state_name_from_include flat_tree "ceph.stage.4" (VStr ".iscsi")
  = gen_state_name_from_include deep_tree "ceph.stage.4" (VStr "..iscsi").
Proof.
  apply (include_leaf_as_directory flat_tree deep_tree "ceph.stage.4" ".iscsi");
    reflexivity.
Defined.

(** ** Cache files and the namespace filter *)

(** X4: two different (stage name, stages_only) keys are never filed
    under the same cache path. *)
Theorem cache_file_path_key (t : salt_tree) (so1 so2 : bool) (a b : string) :
  cache_file_path t so1 (VStr a) = cache_file_path t so2 (VStr b) <->
  so1 = so2 /\ a = b.
Proof.
  split; [|intros [-> ->]; reflexivity].
  unfold cache_file_path. cbn [py_format].
  destruct so1, so2; simpl; intros [= H]; split; try reflexivity;
    apply (string_app_inv_tail a b ".bin"), H.
Qed.

(** X5: with [stages_only] set, a stage whose name does not start with
    [ceph.stage] expands to the empty plan at once: nothing is rendered,
    the cache is neither read nor written, and an include that resolves to
    such a name adds nothing to the plan of the stage that includes it. *)
Theorem outside_namespace_empty (t : salt_tree) (cache : bool) (depth : nat)
    (name : string) (s : store)
    (Hout : startswith "ceph.stage" name = false) :
  traverse_state t true cache (S depth) (VStr name) s = (Ok [], s) /\
  parse_state_steps t (S depth) (VStr name) true cache s = (Ok [], s) /\
  forall parent inc incs result,
    gen_state_name_from_include t parent inc = Ok name ->
    traverse_includes t (traverse_state t true cache (S depth)) parent
      (inc :: incs) result s
    = traverse_includes t (traverse_state t true cache (S depth)) parent
        incs result s.
Proof.
  assert (Htrav : traverse_state t true cache (S depth) (VStr name) s
                  = (Ok [], s)).
  { rewrite traverse_state_unfold, Hout. reflexivity. }
  split; [exact Htrav|]. split.
  - unfold parse_state_steps, bind. rewrite Htrav. reflexivity.
  - intros parent inc incs result Hgen.
    cbn [traverse_includes]. unfold bind at 1, lift at 1. rewrite Hgen.
    unfold bind at 1. rewrite Htrav, app_nil_r. reflexivity.
Qed.

Lemma outside_namespace_empty_witness :
  traverse_state demo_tree true true 3 (VStr "ceph.salt-api") damaged_store
    = (Ok [], damaged_store) /\
  parse_state_steps demo_tree 3 (VStr "ceph.salt-api") true true damaged_store
    = (Ok [], damaged_store).
Proof.
  destruct (outside_namespace_empty demo_tree true 2 "ceph.salt-api"
              damaged_store eq_refl) as (H1 & H2 & _).
  split; assumption.
Defined.

(** X6: [_state_file_path] returns the path it returns only when that file
    exists: [init.sls] in the directory of a directory-like name, the
    [.sls] file of a leaf name.  When the file is not there it raises
    [OrchestrationNotFound], and so does [parse_state_steps] for a stage
    inside the namespace that is not served from the cache, without
    calling the renderer or writing the cache. *)
Theorem missing_source_raises (t : salt_tree) (stages_only cache : bool)
    (depth : nat) (name : string) (s : store)
    (Hin : stages_only = true -> startswith "ceph.stage" name = true)
    (Hmiss : cache = true ->
             cache_dir s !! cache_file_path t stages_only (VStr name) = None)
    (Hnofile :
       path_exists t
         ("/srv/salt/" +:+ replace_dots name +:+
          (if state_name_is_dir t name then "/init.sls" else ".sls"))
       = false) :
  state_file_path t name = Raise OrchestrationNotFound /\
  parse_state_steps t (S depth) (VStr name) stages_only cache s
  = (Raise OrchestrationNotFound, s).
Proof.
  assert (Hpath : state_file_path t name = Raise OrchestrationNotFound).
  { unfold state_file_path.
    destruct (state_name_is_dir t name); rewrite Hnofile; reflexivity. }
  split; [exact Hpath|].
  unfold parse_state_steps, bind. rewrite traverse_state_unfold.
  assert (stages_only && negb (startswith "ceph.stage" name) = false) as ->.
  { destruct stages_only; [|reflexivity]. rewrite Hin; reflexivity. }
  assert ((if cache
           then cache_dir s !! cache_file_path t stages_only (VStr name)
           else None) = None) as ->.
  { destruct cache; [apply Hmiss|]; reflexivity. }
  unfold expand, bind, lift. cbn [as_str]. rewrite Hpath. reflexivity.
Qed.

Lemma missing_source_raises_witness :
  state_file_path demo_tree "ceph.stage.absent" = Raise OrchestrationNotFound /\
  parse_state_steps demo_tree 3 (VStr "ceph.stage.absent") true true
    empty_store
  = (Raise OrchestrationNotFound, empty_store).
Proof.
  apply (missing_source_raises demo_tree true true 2 "ceph.stage.absent"
           empty_store); reflexivity.
Defined.

(** The path [_state_file_path] returns exists. *)
Lemma state_file_path_exists (t : salt_tree) (name path : string) :
  state_file_path t name = Ok path -> path_exists t path = true.
Proof.
  unfold state_file_path.
  destruct (state_name_is_dir t name);
    match goal with
    | |- (if negb (path_exists t ?p) then _ else _) = _ -> _ =>
        destruct (path_exists t p) eqn:E; [|discriminate];
        intros [= <-]; exact E
    end.
Qed.

(** ** The search *)

(** X7: an empty module hint counts as no hint: the search then looks at
    names only, whatever the kind of the steps. *)
Theorem search_step_empty_hint (steps : list step) (sid : value) :
  search_step steps (Some "") sid = search_step steps None sid.
Proof.
  unfold search_step. generalize 0.
  induction steps as [|st steps IH]; intros i; [reflexivity|].
  cbn [search_from].
  change (module_skip (Some "") st) with (Ok (A := bool) false).
  change (module_skip None st) with (Ok (A := bool) false).
  cbv iota. destruct (name_test st sid) as [[|]|]; try reflexivity. apply IH.
Qed.

Lemma search_from_first (steps : list step) (mod_name : option string)
    (sid : value) (i j : nat) :
  search_from i steps mod_name sid = Ok (Some j) ->
  forall k st, k < j - i -> steps !! k = Some st -> ~ matches mod_name sid st.
Proof.
  revert i. induction steps as [|st0 steps IH]; intros i; cbn [search_from];
    [discriminate|].
  destruct (module_skip mod_name st0) as [skip|] eqn:Hskip; [|discriminate].
  destruct skip.
  - intros H [|k] st Hk Hst.
    + injection Hst as <-. intros [Hm _]. congruence.
    + apply search_from_found in H as Hfound.
      destruct Hfound as (_ & Hle & _).
      apply (IH _ H k st); [lia | exact Hst].
  - destruct (name_test st0 sid) as [hit|] eqn:Hhit; [|discriminate].
    destruct hit.
    + intros [= <-] k st Hk. lia.
    + intros H [|k] st Hk Hst.
      * injection Hst as <-. intros [_ Hn]. congruence.
      * apply search_from_found in H as Hfound.
        destruct Hfound as (_ & Hle & _).
        apply (IH _ H k st); [lia | exact Hst].
Qed.

(** X8: the step [_search_step] returns matches the lookup (it passes the
    module test and the name test) and is the first of the plan to do so. *)
Theorem search_step_first_match (steps : list step)
    (mod_name : option string) (sid : value) (j : nat)
    (Hfound : search_step steps mod_name sid = Ok (Some j)) :
  (exists st, steps !! j = Some st /\ matches mod_name sid st) /\
  forall k st, k < j -> steps !! k = Some st -> ~ matches mod_name sid st.
Proof.
  split.
  - apply search_from_found in Hfound as (st & _ & Hst & Hm & Hn).
    rewrite Nat.sub_0_r in Hst. exists st. split; [exact Hst | split; assumption].
  - intros k st Hk. apply (search_from_first steps mod_name sid 0 j Hfound).
    lia.
Qed.

Lemma search_step_first_match_witness :
  (exists st, demo_plan !! 1 = Some st /\ matches (Some "salt") (VStr "A") st) /\
  forall k st, k < 1 -> demo_plan !! k = Some st ->
               ~ matches (Some "salt") (VStr "A") st.
Proof.
  apply (search_step_first_match demo_plan (Some "salt") (VStr "A") 1).
  reflexivity.
Defined.

Lemma tests_readable (st : step) (mod_name : option string) (sid : value) :
  readable st = true ->
  (exists skip, module_skip mod_name st = Ok skip) /\
  (exists hit, name_test st sid = Ok hit).
Proof.
  unfold readable. intros H. apply andb_true_iff in H as [Hargs Hfun]. split.
  - unfold module_skip, step_mod. destruct mod_name as [m|]; [|eauto].
    destruct (truthy (VStr m)); [|eauto].
    destruct (kind st); eauto;
      destruct (fun_ st); try discriminate; simpl; eauto.
  - unfold name_test.
    destruct (get_arg_readable (args st) "name" Hargs) as [v ->]. eauto.
Qed.

Lemma search_from_complete (steps : list step) (mod_name : option string)
    (sid : value) (i : nat) :
  forallb readable steps = true ->
  forall j st,
    steps !! j = Some st -> matches mod_name sid st ->
    (forall k st', k < j -> steps !! k = Some st' -> ~ matches mod_name sid st')
    -> search_from i steps mod_name sid = Ok (Some (i + j)).
Proof.
  revert i. induction steps as [|st0 steps IH]; intros i Hread j st Hst Hm Hfirst.
  - discriminate.
  - cbn [forallb] in Hread. apply andb_true_iff in Hread as [Hst0 Hread].
    cbn [search_from]. destruct j as [|j].
    + injection Hst as ->. destruct Hm as [-> ->]. rewrite Nat.add_0_r.
      reflexivity.
    + destruct (tests_readable st0 mod_name sid Hst0) as [[skip Hs] [hit Hh]].
      assert (Hnot : ~ matches mod_name sid st0).
      { apply (Hfirst 0 st0); [lia | reflexivity]. }
      rewrite Hs.
      assert (Hnext : search_from (S i) steps mod_name sid
                      = Ok (Some (i + S j))).
      { replace (i + S j) with (S i + j) by lia.
        apply (IH (S i) Hread j st Hst Hm).
        intros k st' Hk Hst'. apply (Hfirst (S k) st'); [lia | exact Hst']. }
      destruct skip; [exact Hnext|]. rewrite Hh.
      destruct hit; [|exact Hnext].
      exfalso. apply Hnot. split; assumption.
Qed.

(** X9: when the steps are readable (their arguments are mappings or
    lists of mappings, module and built-in steps have a string [fun]) the
    search raises nothing: it returns the first step that matches, and
    [None] exactly when no step matches. *)
Theorem search_step_complete (steps : list step) (mod_name : option string)
    (sid : value)
    (Hread : forallb readable steps = true) :
  (forall j st,
     steps !! j = Some st -> matches mod_name sid st ->
     (forall k st', k < j -> steps !! k = Some st' ->
                    ~ matches mod_name sid st') ->
     search_step steps mod_name sid = Ok (Some j)) /\
  (Forall (fun st => ~ matches mod_name sid st) steps ->
   search_step steps mod_name sid = Ok None).
Proof.
  split.
  - intros j st Hst Hm Hfirst.
    apply (search_from_complete steps mod_name sid 0 Hread j st Hst Hm Hfirst).
  - intros Hnone.
    destruct (search_from_readable steps mod_name sid 0 Hread) as [[j|] Hs];
      [|exact Hs].
    exfalso. eapply search_step_unmatched; eauto.
Qed.

Lemma search_step_complete_witness :
  search_step demo_plan None (VStr "m.f") = Ok (Some 0) /\
  search_step demo_plan (Some "cmd") (VStr "A") = Ok None.
Proof.
  destruct (search_step_complete demo_plan None (VStr "m.f") eq_refl)
    as [Hfound _].
  destruct (search_step_complete demo_plan (Some "cmd") (VStr "A") eq_refl)
    as [_ Hnone].
  split.
  - apply (Hfound 0 _ eq_refl).
    + split; reflexivity.
    + intros k st' Hk. lia.
  - apply Hnone. repeat constructor; intros [H1 H2];
      vm_compute in H1, H2; discriminate.
Defined.

(** ** Arguments *)

Lemma args_with_first_bound (key : string) (l : list value) :
  forallb is_dict l = true ->
  exists r, args_with key l = Ok r /\
            match r with
            | a :: _ => py_getitem key a
            | [] => Ok VNone
            end = Ok (first_bound key l).
Proof.
  induction l as [|a l IH]; intros Hl.
  - exists []. split; reflexivity.
  - cbn [forallb] in Hl. apply andb_true_iff in Hl as [Ha Hl].
    destruct (IH Hl) as (r & Hr & Hfirst).
    destruct a as [| | | | |d]; try discriminate.
    cbn [args_with py_contains first_bound]. rewrite Hr.
    destruct (dict_get key d) as [v|] eqn:Hv.
    + eexists. split; [reflexivity|]. cbn [py_getitem]. rewrite Hv. reflexivity.
    + eexists. split; [reflexivity|]. exact Hfirst.
Qed.

Lemma first_bound_bindings (key : string) (l : list value) :
  Forall single_pair l ->
  match dict_get key (map Spec.binding_of l) with
  | Some v => v
  | None => VNone
  end = first_bound key l.
Proof.
  induction l as [|a l IH]; intros Hl; [reflexivity|].
  inversion Hl as [|? ? (k & v & ->) Hl']; subst.
  cbn [map Spec.binding_of dict_get first_bound].
  destruct (String.eqb k key); [reflexivity | apply IH, Hl'].
Qed.

(** X10: [get_arg] never raises on a list of mappings and returns the
    value of the first mapping that binds the key ([None] when none
    does).  After the normalization of a built-in command the order is the
    opposite: of several single-pair mappings that bind a key, the last
    one gives the value. *)
Theorem get_arg_first_or_last (key : string) (raw : list value)
    (Hraw : Forall single_pair raw) :
  get_arg (VList raw) key = Ok (first_bound key raw) /\
  get_arg (VDict (condense raw)) key = Ok (first_bound key (rev raw)).
Proof.
  assert (Hdicts : forallb is_dict raw = true).
  { apply forallb_forall. intros a Ha.
    rewrite Forall_forall in Hraw.
    destruct (Hraw a) as (k & v & ->); [apply list_elem_of_In, Ha | reflexivity]. }
  split.
  - cbn [get_arg].
    destruct (args_with_first_bound key raw Hdicts) as (r & -> & Hr). exact Hr.
  - cbn [get_arg]. rewrite condense_lookup.
    + rewrite <- map_rev.
      rewrite <- (first_bound_bindings key (rev raw)).
      * destruct (dict_get key (map Spec.binding_of (rev raw))); reflexivity.
      * apply Forall_rev, Hraw.
    + eapply Forall_impl; [exact Hraw|].
      intros a (k & v & ->). reflexivity.
Qed.

Lemma get_arg_first_or_last_witness :
  get_arg (VList [VDict [("tgt", VStr "a")]; VDict [("tgt", VStr "b")]]) "tgt"
    = Ok (VStr "a") /\
  get_arg (VDict (condense [VDict [("tgt", VStr "a")];
                            VDict [("tgt", VStr "b")]])) "tgt"
    = Ok (VStr "b").
Proof.
  apply (get_arg_first_or_last "tgt"
           [VDict [("tgt", VStr "a")]; VDict [("tgt", VStr "b")]]).
  repeat constructor; unfold single_pair; eauto.
Defined.

(** ** Linking *)

Lemma for_each_skip {A} (body : A -> list step -> res (list step))
    (l : list A) (r : list step) :
  (forall x, In x l -> body x r = Ok r) -> for_each body l r = Ok r.
Proof.
  induction l as [|x l IH]; intros H; [reflexivity|].
  cbn [for_each]. rewrite (H x (or_introl eq_refl)).
  apply IH. intros y Hy. apply H. right. exact Hy.
Qed.

(** X11: on a plan none of whose steps declares a requisite, the requisite
    pass searches nothing and returns the plan as it is. *)
Theorem process_requisites_none (plan : list step)
    (Hnone : Forall no_requisite plan) :
  process_requisites plan = Ok plan.
Proof.
  unfold process_requisites. apply for_each_skip.
  intros [i st] Hin.
  apply list_elem_of_In, elem_of_lookup_imap in Hin as (j & y & Heq & Hj).
  injection Heq as Hi Hs. subst j y.
  rewrite Forall_forall in Hnone.
  assert (Hst : no_requisite st).
  { apply Hnone, list_elem_of_lookup. eauto. }
  unfold process_step. cbn [fst snd]. apply for_each_skip.
  intros directive Hdir. unfold no_requisite in Hst.
  rewrite Forall_forall in Hst.
  destruct (Hst directive) as (req & Hreq & Hfalse);
    [apply list_elem_of_In, Hdir|].
  unfold process_requisite_directive. rewrite Hreq, Hfalse. reflexivity.
Qed.

Lemma process_requisites_none_witness :
  process_requisites [nameless_step; runner_step]
  = Ok [nameless_step; runner_step].
Proof.
  apply (process_requisites_none [nameless_step; runner_step]).
  repeat constructor; eexists; split; reflexivity.
Defined.

Lemma add_deps_app (directive : string) (js ks : list nat) (st : step) :
  add_deps directive (js ++ ks) st
  = add_deps directive ks (add_deps directive js st).
Proof. unfold add_deps. apply fold_left_app. Qed.

Lemma flat_map_of_map {A B C} (f : B -> list C) (g : A -> B) (l : list A) :
  flat_map f (map g l) = flat_map (fun x => f (g x)) l.
Proof.
  induction l as [|x l IH]; [reflexivity|].
  cbn [flat_map map]. rewrite IH. reflexivity.
Qed.

Lemma flat_map_of_flat_map {A B C} (f : B -> list C) (g : A -> list B)
    (l : list A) :
  flat_map f (flat_map g l) = flat_map (fun x => flat_map f (g x)) l.
Proof.
  induction l as [|x l IH]; [reflexivity|].
  cbn [flat_map]. rewrite flat_map_app, IH. reflexivity.
Qed.

Section linking_result.

Variable plan : list step.

Local Abbreviation same := (same_steps plan).

(** A loop all of whose rounds alter the step at position [i]. *)
Lemma for_each_alter {A} (body : A -> list step -> res (list step))
    (F : A -> step -> step) (i : nat) (l : list A) :
  (forall x r r', In x l -> same r -> body x r = Ok r' ->
                  same r' /\ r' = alter (F x) i r) ->
  forall r r',
    same r -> for_each body l r = Ok r' ->
    same r' /\
    r' = alter (fun st => fold_left (fun st x => F x st) l st) i r.
Proof.
  induction l as [|x l IH]; intros Hbody r r' Hr; cbn [for_each].
  - intros [= <-]. split; [exact Hr|].
    symmetry. apply list_alter_id. reflexivity.
  - destruct (body x r) as [r1|] eqn:Hx; [|discriminate].
    destruct (Hbody x r r1 (or_introl eq_refl) Hr Hx) as [Hr1 ->].
    intros Hrest. apply IH in Hrest as [Hr' ->]; [|intros; eapply Hbody;
      [right|..]; eassumption | exact Hr1].
    split; [exact Hr'|]. rewrite list_alter_alter_eq. reflexivity.
Qed.

Lemma fold_add_deps {A} (directive : string) (T : A -> list nat)
    (l : list A) (st : step) :
  fold_left (fun st x => add_deps directive (T x) st) l st
  = add_deps directive (flat_map T l) st.
Proof.
  revert st. induction l as [|x l IH]; intros st; [reflexivity|].
  cbn [fold_left flat_map]. rewrite IH, add_deps_app. reflexivity.
Qed.

Lemma link_one_alter i directive mod_name sid r r' :
  same r -> link_one i directive mod_name sid r = Ok r' ->
  same r' /\
  r' = alter (add_deps directive (lookup_target plan (mod_name, sid))) i r.
Proof.
  intros Hr Hlink. split; [eapply link_one_keeps; eauto|].
  unfold link_one in Hlink. unfold lookup_target. cbn [fst snd].
  rewrite (search_step_same r plan) in Hlink by exact Hr.
  destruct (search_step plan mod_name sid) as [[j|]|]; try discriminate.
  injection Hlink as <-. reflexivity.
Qed.

Lemma link_req_alter i directive entry r r' :
  same r -> link_req i directive entry r = Ok r' ->
  same r' /\
  r' = alter (add_deps directive
                (flat_map (lookup_target plan)
                   match entry with
                   | VDict d => map (fun item => (Some (fst item), snd item)) d
                   | _ => [(None, entry)]
                   end)) i r.
Proof.
  intros Hr. unfold link_req.
  assert (Hone : link_one i directive None entry r = Ok r' ->
                 same r' /\
                 r' = alter (add_deps directive
                               (flat_map (lookup_target plan) [(None, entry)]))
                        i r).
  { intros H. apply link_one_alter in H as [H1 H2]; [|exact Hr].
    split; [exact H1|]. cbn [flat_map]. rewrite app_nil_r. exact H2. }
  destruct entry as [| | | | |d]; try exact Hone.
  unfold link_pairs. intros Hloop.
  apply (for_each_alter _
           (fun item => add_deps directive
                          (lookup_target plan (Some (fst item), snd item)))
           i)
    in Hloop as [Hr' ->]; [|intros x q q' _; apply link_one_alter | exact Hr].
  split; [exact Hr'|]. apply list_alter_ext; [|reflexivity].
  intros st _. rewrite fold_add_deps, flat_map_of_map. reflexivity.
Qed.

Lemma process_requisite_directive_alter i st directive r r' :
  same r -> process_requisite_directive i st directive r = Ok r' ->
  same r' /\ r' = alter (add_deps directive (targets plan st directive)) i r.
Proof.
  intros Hr. unfold process_requisite_directive, targets, declared_lookups.
  destruct (get_arg (args st) directive) as [req|]; [|discriminate].
  destruct (truthy req).
  - intros Hloop.
    apply (for_each_alter _
             (fun entry =>
                add_deps directive
                  (flat_map (lookup_target plan)
                     match entry with
                     | VDict d =>
                         map (fun item => (Some (fst item), snd item)) d
                     | _ => [(None, entry)]
                     end))
             i)
      in Hloop as [Hr' ->]; [|intros x q q' _; apply link_req_alter | exact Hr].
    split; [exact Hr'|]. apply list_alter_ext; [|reflexivity].
    intros st0 _. rewrite fold_add_deps, flat_map_of_flat_map. reflexivity.
  - intros [= <-]. split; [exact Hr|].
    symmetry. apply list_alter_id. reflexivity.
Qed.

Lemma add_deps_success (directive : string) (js : list nat) (st : step) :
  existsb (String.eqb directive) ["require"; "watch"; "onchanges"] = true ->
  add_deps directive js st
  = {| kind := kind st; desc := desc st; args := args st; state := state st;
       target := target st; fun_ := fun_ st;
       on_success_deps := on_success_deps st ++ js;
       on_fail_deps := on_fail_deps st |}.
Proof.
  intros Hdir. revert st. induction js as [|j js IH]; intros st.
  - cbn. rewrite app_nil_r. destruct st; reflexivity.
  - unfold add_deps in *. cbn [fold_left]. rewrite IH.
    unfold add_dep. rewrite Hdir. cbn. rewrite <- app_assoc. reflexivity.
Qed.

Lemma add_deps_fail (js : list nat) (st : step) :
  add_deps "onfail" js st
  = {| kind := kind st; desc := desc st; args := args st; state := state st;
       target := target st; fun_ := fun_ st;
       on_success_deps := on_success_deps st;
       on_fail_deps := on_fail_deps st ++ js |}.
Proof.
  revert st. induction js as [|j js IH]; intros st.
  - cbn. rewrite app_nil_r. destruct st; reflexivity.
  - unfold add_deps in *. cbn [fold_left]. rewrite IH.
    cbn. rewrite <- app_assoc. reflexivity.
Qed.

Lemma process_step_alter i st r r' :
  same r -> process_step (i, st) r = Ok r' ->
  same r' /\
  r' = alter (fun st0 =>
                add_deps "onfail" (targets plan st "onfail")
                  (add_deps "onchanges" (targets plan st "onchanges")
                     (add_deps "watch" (targets plan st "watch")
                        (add_deps "require" (targets plan st "require") st0))))
         i r.
Proof.
  intros Hr Hloop. unfold process_step in Hloop. cbn [fst snd] in Hloop.
  apply (for_each_alter _
           (fun directive => add_deps directive (targets plan st directive))
           i)
    in Hloop as [Hr' ->];
    [|intros x q q' _; apply process_requisite_directive_alter | exact Hr].
  split; [exact Hr' | reflexivity].
Qed.

Lemma linked_step_add_deps (st : step) :
  add_deps "onfail" (targets plan st "onfail")
    (add_deps "onchanges" (targets plan st "onchanges")
       (add_deps "watch" (targets plan st "watch")
          (add_deps "require" (targets plan st "require") st)))
  = linked_step plan st.
Proof.
  rewrite add_deps_fail, !add_deps_success by reflexivity.
  unfold linked_step. cbn. rewrite <- !app_assoc. reflexivity.
Qed.

Lemma process_steps_linked (todo : list step) :
  forall done r',
    same (done ++ todo) ->
    for_each process_step (imap (fun j st => (length done + j, st)) todo)
      (done ++ todo) = Ok r' ->
    r' = done ++ map (linked_step plan) todo.
Proof.
  induction todo as [|st todo IH]; intros done r' Hsame.
  - cbn. intros [= <-]. reflexivity.
  - rewrite imap_cons. cbn [for_each].
    destruct (process_step (length done + 0, st) (done ++ st :: todo))
      as [r1|] eqn:Hstep; [|discriminate].
    apply process_step_alter in Hstep as [Hr1 ->]; [|exact Hsame].
    rewrite alter_app_r in *. cbn [alter list_alter] in *.
    rewrite linked_step_add_deps in *.
    intros Hrest.
    specialize (IH (done ++ [linked_step plan st]) r').
    rewrite <- !app_assoc in IH. cbn [app] in IH.
    rewrite (IH Hr1).
    + reflexivity.
    + rewrite <- Hrest. f_equal. apply imap_ext. intros j x _.
      cbn. rewrite length_app. cbn. f_equal. lia.
Qed.

End linking_result.

Lemma process_requisites_map (plan linked : list step) :
  process_requisites plan = Ok linked -> linked = map (linked_step plan) plan.
Proof.
  intros Hlinked.
  apply (process_steps_linked plan plan [] linked); [reflexivity|].
  exact Hlinked.
Qed.

(** X12: what the requisite pass returns, when it returns: the steps of
    the plan in their order, each unchanged but for its dependency lists,
    to which the steps found for its [require], [watch] and [onchanges]
    lookups (in this order) resp. for its [onfail] lookups are appended;
    every lookup is searched in the whole plan. *)
Theorem process_requisites_linked (plan linked : list step)
    (Hlinked : process_requisites plan = Ok linked) :
  linked = map (linked_step plan) plan /\
  length linked = length plan.
Proof.
  pose proof (process_requisites_map plan linked Hlinked) as H.
  split; [exact H|]. rewrite H. apply length_map.
Qed.

Lemma process_requisites_linked_witness :
  demo_plan = map (linked_step (map unlinked demo_plan))
                  (map unlinked demo_plan) /\
  length demo_plan = length (map unlinked demo_plan).
Proof.
  apply (process_requisites_linked (map unlinked demo_plan) demo_plan).
  reflexivity.
Defined.

Lemma search_from_in_range (steps : list step) (mod_name : option string)
    (sid : value) (j : nat) :
  search_step steps mod_name sid = Ok (Some j) -> j < length steps.
Proof.
  intros H. apply search_from_found in H as (st & _ & Hst & _).
  rewrite Nat.sub_0_r in Hst. eapply lookup_lt_Some, Hst.
Qed.

Lemma targets_in_range (plan : list step) (st : step) (directive : string) :
  Forall (fun j => j < length plan) (targets plan st directive).
Proof.
  unfold targets. destruct (get_arg (args st) directive) as [req|];
    [|constructor].
  apply Forall_forall. intros j Hj.
  apply list_elem_of_In, in_flat_map in Hj as (l & _ & Hj).
  unfold lookup_target in Hj.
  destruct (search_step plan l.1 l.2) as [[k|]|] eqn:Hs;
    [destruct Hj as [<-|[]]; eapply search_from_in_range, Hs
    | destruct Hj | destruct Hj].
Qed.

(** X13: linking never leaves a dangling reference: when the
    dependencies the steps come with are positions of the plan, so are
    all dependencies of the linked plan. *)
Theorem linked_deps_in_range (plan linked : list step)
    (Hlinked : process_requisites plan = Ok linked)
    (Hplan : Forall (deps_in_range (length plan)) plan) :
  Forall (deps_in_range (length linked)) linked.
Proof.
  apply process_requisites_map in Hlinked as ->.
  rewrite length_map. apply Forall_map.
  eapply Forall_impl; [exact Hplan|]. intros st Hst.
  unfold deps_in_range in *. cbn [linked_step on_success_deps on_fail_deps].
  apply Forall_app in Hst as [Hs Hf].
  repeat (apply Forall_app; split);
    try assumption; apply targets_in_range.
Qed.

Lemma linked_deps_in_range_witness :
  Forall (deps_in_range (length demo_plan)) demo_plan.
Proof.
  apply (linked_deps_in_range (map unlinked demo_plan) demo_plan).
  - reflexivity.
  - repeat constructor.
Defined.

Section for_each_progress.

Context {A : Type}.
Variable body : A -> list step -> res (list step).
Variable P : list step -> Prop.

Lemma for_each_succeeds (l : list A) :
  (forall x r r', In x l -> P r -> body x r = Ok r' -> P r') ->
  (forall x r, In x l -> P r -> exists r', body x r = Ok r') ->
  forall r, P r -> exists r', for_each body l r = Ok r'.
Proof.
  induction l as [|x l IH]; intros Hkeeps Hok r Hr; cbn [for_each]; [eauto|].
  destruct (Hok x r (or_introl eq_refl) Hr) as [r1 Hx]. rewrite Hx.
  apply IH.
  - intros y q q' Hy. apply Hkeeps. right. exact Hy.
  - intros y q Hy. apply Hok. right. exact Hy.
  - eapply Hkeeps; [left; reflexivity | exact Hr | exact Hx].
Qed.

Lemma for_each_rounds (l : list A) :
  (forall x r r', In x l -> P r -> body x r = Ok r' -> P r') ->
  forall r r', P r -> for_each body l r = Ok r' ->
  forall x, In x l -> exists q q', P q /\ body x q = Ok q'.
Proof.
  induction l as [|x l IH]; intros Hkeeps r r' Hr; cbn [for_each].
  - intros _ y [].
  - destruct (body x r) as [r1|] eqn:Hx; [|discriminate].
    intros Hrest y [<-|Hy]; [eauto|].
    eapply IH; [| |exact Hrest|exact Hy].
    + intros z q q' Hz. apply Hkeeps. right. exact Hz.
    + eapply Hkeeps; [left; reflexivity | exact Hr | exact Hx].
Qed.

End for_each_progress.

Section linking_success.

Variable plan : list step.

Local Abbreviation same := (same_steps plan).

Lemma link_one_succeeds i directive mod_name sid r :
  same r ->
  (exists j, search_step plan mod_name sid = Ok (Some j)) <->
  (exists r', link_one i directive mod_name sid r = Ok r').
Proof.
  intros Hr. unfold link_one.
  rewrite (search_step_same r plan) by exact Hr.
  destruct (search_step plan mod_name sid) as [[j|]|]; split;
    intros [x Hx]; try discriminate; eauto.
Qed.

Lemma link_req_succeeds i directive entry r :
  same r ->
  (forall l,
     In l match entry with
          | VDict d => map (fun item => (Some (fst item), snd item)) d
          | _ => [(None, entry)]
          end ->
     exists j, search_step plan (fst l) (snd l) = Ok (Some j)) <->
  (exists r', link_req i directive entry r = Ok r').
Proof.
  intros Hr. unfold link_req.
  assert (Hone :
            (forall l, In l [(None, entry)] ->
                       exists j, search_step plan l.1 l.2 = Ok (Some j)) <->
            (exists r', link_one i directive None entry r = Ok r')).
  { rewrite <- link_one_succeeds by exact Hr. split.
    - intros H. apply (H (None, entry)). left. reflexivity.
    - intros H l [<-|[]]. exact H. }
  destruct entry as [| | | | |d]; try exact Hone. clear Hone.
  unfold link_pairs. split.
  - intros Hall. apply for_each_succeeds with (P := same); [| |exact Hr].
    + intros x q q' _. apply link_one_keeps.
    + intros x q Hx Hq. apply link_one_succeeds; [exact Hq|].
      apply (Hall (Some x.1, x.2)). apply in_map_iff. eauto.
  - intros [r' Hloop] l Hl. apply in_map_iff in Hl as (item & <- & Hitem).
    destruct (for_each_rounds _ same d
                (fun x q q' _ => link_one_keeps plan i directive _ _ q q')
                r r' Hr Hloop item Hitem) as (q & q' & Hq & Hbody).
    apply (link_one_succeeds i directive (Some item.1) item.2 q Hq). eauto.
Qed.

Lemma process_requisite_directive_succeeds i st directive r :
  same r ->
  (exists req,
     get_arg (args st) directive = Ok req /\
     forall l, In l (declared_lookups req) ->
               exists j, search_step plan (fst l) (snd l) = Ok (Some j)) <->
  (exists r', process_requisite_directive i st directive r = Ok r').
Proof.
  intros Hr. unfold process_requisite_directive.
  destruct (get_arg (args st) directive) as [req|]; cycle 1.
  { split; [intros (req & H & _) | intros [r' H]]; discriminate. }
  assert (Hreq : (exists req0, Ok req = Ok req0 /\
                    forall l, In l (declared_lookups req0) ->
                      exists j, search_step plan l.1 l.2 = Ok (Some j)) <->
                 (forall l, In l (declared_lookups req) ->
                      exists j, search_step plan l.1 l.2 = Ok (Some j))).
  { split; [intros (req0 & [= <-] & H); exact H | eauto]. }
  rewrite Hreq. clear Hreq. unfold declared_lookups.
  destruct (truthy req); [|split; [eauto | intros _ l []]].
  split.
  - intros Hall.
    apply for_each_succeeds with (P := same); [| |exact Hr].
    + intros x q q' _. apply link_req_keeps.
    + intros x q Hx Hq. apply link_req_succeeds; [exact Hq|].
      intros l Hl. apply Hall. apply in_flat_map. eauto.
  - intros [r' Hloop] l Hl. apply in_flat_map in Hl as (entry & Hentry & Hl).
    destruct (for_each_rounds _ same _
                (fun x q q' _ => link_req_keeps plan i directive x q q')
                r r' Hr Hloop entry Hentry) as (q & q' & Hq & Hbody).
    apply (link_req_succeeds i directive entry q Hq); eauto.
Qed.

Lemma process_step_succeeds i st r :
  same r ->
  resolvable plan st <-> (exists r', process_step (i, st) r = Ok r').
Proof.
  intros Hr. unfold process_step, resolvable. cbn [fst snd]. split.
  - intros Hall. apply for_each_succeeds with (P := same); [| |exact Hr].
    + intros x q q' _. apply process_requisite_directive_keeps.
    + intros x q Hx Hq.
      apply process_requisite_directive_succeeds; [exact Hq | apply Hall, Hx].
  - intros [r' Hloop] directive Hdir.
    destruct (for_each_rounds _ same _
                (fun x q q' _ =>
                   process_requisite_directive_keeps plan i st x q q')
                r r' Hr Hloop directive Hdir) as (q & q' & Hq & Hbody).
    apply (process_requisite_directive_succeeds i st directive q Hq). eauto.
Qed.

End linking_success.

(** X14: the requisite pass returns a plan exactly when, for every step,
    each of the four directives can be read and every lookup it declares
    finds a step in the plan. *)
Theorem process_requisites_succeeds (plan : list step) :
  (exists linked, process_requisites plan = Ok linked) <->
  Forall (resolvable plan) plan.
Proof.
  unfold process_requisites. split.
  - intros [linked Hloop]. apply Forall_forall. intros st Hst.
    apply list_elem_of_lookup in Hst as [i Hi].
    destruct (for_each_rounds _ (same_steps plan) (imap pair plan)
                (fun x q q' _ => process_step_keeps plan x q q')
                plan linked eq_refl Hloop (i, st)) as (q & q' & Hq & Hbody).
    { apply list_elem_of_In, elem_of_lookup_imap. eauto. }
    apply (process_step_succeeds plan i st q Hq). eauto.
  - intros Hall.
    apply for_each_succeeds with (P := same_steps plan); [| |reflexivity].
    + intros x q q' _. apply process_step_keeps.
    + intros [i st] q Hx Hq. apply (process_step_succeeds plan i st q Hq).
      apply list_elem_of_In, elem_of_lookup_imap in Hx as (j & y & Heq & Hj).
      injection Heq as Hi Hs. subst j y.
      rewrite Forall_forall in Hall. apply Hall, list_elem_of_lookup. eauto.
Qed.

(** ** What an expansion leaves in the store *)

(** One call of [_traverse_state] on any name, step by step. *)
Lemma traverse_state_body_unfold (t : salt_tree) (stages_only cache : bool)
    (self : value -> M (list step)) (v : value) (s : store) :
  traverse_state_body t stages_only cache self v s =
  match (if stages_only
         then try name <- as_str v; Ok (negb (startswith "ceph.stage" name))
         else Ok false) with
  | Raise e => (Raise e, s)
  | Ok true => (Ok [], s)
  | Ok false =>
      match (if cache
             then cache_dir s !! cache_file_path t stages_only v
             else None) with
      | Some (Pickled plan) => (Ok plan, s)
      | Some Garbage => (Raise UnpicklingError, s)
      | None =>
          match expand t self v s with
          | (Ok result, s1) =>
              (Ok result,
               if cache
               then filed s1 (cache_file_path t stages_only v) result
               else s1)
          | (Raise e, s1) => (Raise e, s1)
          end
      end
  end.
Proof.
  unfold traverse_state_body, bind, lift.
  destruct (if stages_only then _ else _) as [[|]|]; try reflexivity.
  destruct cache.
  - unfold cache_read.
    destruct (cache_dir s !! _) as [[plan|]|]; try reflexivity;
      destruct (expand t self v s) as [[result|e] s1]; reflexivity.
  - unfold ret at 1.
    destruct (expand t self v s) as [[result|e] s1]; reflexivity.
Qed.

Section post_facts.

Variable t : salt_tree.
Variable Q : store -> store -> Prop.
Hypothesis Q_refl : forall s, Q s s.
Hypothesis Q_trans : forall s1 s2 s3, Q s1 s2 -> Q s2 s3 -> Q s1 s3.
Hypothesis Q_render :
  forall s name path, state_file_path t name = Ok path -> Q s (logged s path).

Lemma post_ret {A} (a : A) : post Q (ret a).
Proof. intros s r s' [= _ <-]. apply Q_refl. Qed.

Lemma post_raise {A} (e : exn) : post Q (raise (A := A) e).
Proof. intros s r s' [= _ <-]. apply Q_refl. Qed.

Lemma post_lift {A} (x : res A) : post Q (lift x).
Proof. intros s r s' [= _ <-]. apply Q_refl. Qed.

Lemma post_bind {A B} (f : M A) (k : A -> M B) :
  post Q f -> (forall a, post Q (k a)) -> post Q (bind f k).
Proof.
  intros Hf Hk s r s'. unfold bind.
  destruct (f s) as [[a|e] s1] eqn:Hfs.
  - intros Hks. eapply Q_trans; [eapply Hf, Hfs | eapply Hk, Hks].
  - intros [= _ <-]. eapply Hf, Hfs.
Qed.

Variable self : value -> M (list step).
Hypothesis Hself : forall v, post Q (self v).

Lemma post_includes (state_name : string) (incs : list value) :
  forall result, post Q (traverse_includes t self state_name incs result).
Proof.
  induction incs as [|inc incs IH]; intros result; cbn [traverse_includes].
  - apply post_ret.
  - apply post_bind; [apply post_lift|]. intros name.
    apply post_bind; [apply Hself|]. intros sub. apply IH.
Qed.

Lemma post_step (key fn : string) (args : value) (result : list step) :
  post Q (traverse_step self key fn args result).
Proof.
  unfold traverse_step.
  repeat match goal with
         | |- post Q (if ?b then _ else _) => destruct b
         | |- post Q (bind (lift _) _) =>
             apply post_bind; [apply post_lift | intros ?]
         | |- post Q (bind (self _) _) =>
             apply post_bind; [apply Hself | intros ?]
         | |- post Q (ret _) => apply post_ret
         end.
Qed.

Lemma post_steps (key : string) (steps : list (string * value)) :
  forall result, post Q (traverse_steps self key steps result).
Proof.
  induction steps as [|[fn args] steps IH]; intros result;
    cbn [traverse_steps].
  - apply post_ret.
  - apply post_bind; [apply post_step | intros r; apply IH].
Qed.

Lemma post_decl (state_name : string) (d : list (string * value))
    (key : string) (steps : value) (result : list step) :
  post Q (traverse_decl t self state_name d key steps result).
Proof.
  unfold traverse_decl. destruct (String.eqb key "include").
  - destruct (dict_get "include" d); [|apply post_raise].
    apply post_bind; [apply post_lift | intros incs; apply post_includes].
  - destruct steps; try apply post_ret. apply post_steps.
Qed.

Lemma post_items (state_name : string) (d items : list (string * value)) :
  forall result, post Q (traverse_items t self state_name d items result).
Proof.
  induction items as [|[key steps] items IH]; intros result;
    cbn [traverse_items].
  - apply post_ret.
  - apply post_bind; [apply post_decl | intros r; apply IH].
Qed.

Lemma post_expand (state_name : value) : post Q (expand t self state_name).
Proof.
  intros s r s'. unfold expand, bind, lift.
  destruct (as_str state_name) as [name|]; [|intros [= _ <-]; apply Q_refl].
  destruct (state_file_path t name) as [path|] eqn:Hpath;
    [|intros [= _ <-]; apply Q_refl].
  unfold SLSRenderer_render.
  pose proof (Q_render s name path Hpath) as Hlog.
  destruct (render t path) as [[| | | | |d]|];
    try (intros [= _ <-]; exact Hlog).
  intros Hitems. eapply Q_trans; [exact Hlog|].
  eapply post_items, Hitems.
Qed.

Variables stages_only cache : bool.
Hypothesis Q_filed :
  cache = true -> forall s path result, Q s (filed s path result).

Lemma post_body (state_name : value) :
  post Q (traverse_state_body t stages_only cache self state_name).
Proof.
  intros s r s'. rewrite traverse_state_body_unfold.
  destruct (if stages_only then _ else _) as [[|]|];
    try (intros [= _ <-]; apply Q_refl).
  destruct (if cache then _ else _) as [[plan|]|];
    try (intros [= _ <-]; apply Q_refl).
  destruct (expand t self state_name s) as [[result|e] s1] eqn:Hexp.
  - intros [= _ <-]. apply post_expand in Hexp.
    destruct cache eqn:Hc; [|exact Hexp].
    eapply Q_trans; [exact Hexp | apply Q_filed; reflexivity].
  - intros [= _ <-]. eapply post_expand, Hexp.
Qed.

End post_facts.

Lemma traverse_state_post (t : salt_tree) (Q : store -> store -> Prop)
    (stages_only cache : bool) :
  (forall s, Q s s) ->
  (forall s1 s2 s3, Q s1 s2 -> Q s2 s3 -> Q s1 s3) ->
  (forall s name path, state_file_path t name = Ok path -> Q s (logged s path))
  -> (cache = true -> forall s path result, Q s (filed s path result)) ->
  forall depth v, post Q (traverse_state t stages_only cache depth v).
Proof.
  intros Hrefl Htrans Hrender Hfiled depth.
  induction depth as [|depth IH]; intros v.
  - apply post_raise, Hrefl.
  - cbn [traverse_state]. apply post_body; assumption.
Qed.

Lemma traverse_nocache_cache_dir (t : salt_tree) (stages_only : bool)
    (depth : nat) (v : value) (s s' : store) (r : res (list step)) :
  traverse_state t stages_only false depth v s = (r, s') ->
  cache_dir s' = cache_dir s.
Proof.
  intros Htrav.
  refine (traverse_state_post t (fun a b => cache_dir b = cache_dir a)
            stages_only false _ _ _ _ depth v s r s' Htrav).
  - reflexivity.
  - intros; congruence.
  - reflexivity.
  - discriminate.
Qed.

(** X15: with the cache disabled a call neither reads nor writes the
    cache directory: it leaves it as it was, whatever the outcome, and the
    plan it returns does not depend on what the store held. *)
Theorem nocache_leaves_cache (t : salt_tree) (stages_only : bool)
    (depth : nat) (v : value) (s s' : store) (r : res (list step))
    (Hrun : parse_state_steps t depth v stages_only false s = (r, s')) :
  cache_dir s' = cache_dir s /\
  forall s2, (exists plan, r = Ok plan) ->
             fst (parse_state_steps t depth v stages_only false s2) = r.
Proof.
  unfold parse_state_steps, bind in *.
  destruct (traverse_state t stages_only false depth v s)
    as [[result|e] s1] eqn:Htrav.
  - unfold lift in Hrun. injection Hrun as <- <-. split.
    + eapply traverse_nocache_cache_dir, Htrav.
    + intros s2 _.
      destruct (traverse_nocache_mono t stages_only depth depth v
                  (le_n depth) s s2 result s1 I Htrav) as (s2' & -> & _).
      reflexivity.
  - injection Hrun as <- <-. split.
    + eapply traverse_nocache_cache_dir, Htrav.
    + intros s2 [plan [=]].
Qed.

Lemma nocache_leaves_cache_witness :
  cache_dir (snd (parse_state_steps demo_tree 3 (VStr "ceph.stage.demo")
                    true false damaged_store))
  = cache_dir damaged_store /\
  forall s2, (exists plan, Ok demo_plan = Ok plan) ->
             fst (parse_state_steps demo_tree 3 (VStr "ceph.stage.demo")
                    true false s2) = Ok demo_plan.
Proof.
  apply (nocache_leaves_cache demo_tree true 3 (VStr "ceph.stage.demo")
           damaged_store).
  vm_compute. reflexivity.
Defined.

(** X16: whatever the outcome of a call, the renderer was only called on
    files that exist, each call being recorded after the calls made
    before. *)
Theorem renderer_called_on_existing (t : salt_tree)
    (stages_only cache : bool) (depth : nat) (v : value) (s s' : store)
    (r : res (list step))
    (Hrun : parse_state_steps t depth v stages_only cache s = (r, s')) :
  rendered_existing t s s'.
Proof.
  assert (Htrav : forall r1 s1,
             traverse_state t stages_only cache depth v s = (r1, s1) ->
             rendered_existing t s s1).
  { intros r1 s1.
    refine (traverse_state_post t (rendered_existing t) stages_only cache
              _ _ _ _ depth v s r1 s1).
    - intros s0. exists []. split; [symmetry; apply app_nil_r | constructor].
    - intros s1' s2 s3 (p1 & H1 & F1) (p2 & H2 & F2). exists (p1 ++ p2).
      split; [rewrite H2, H1, app_assoc; reflexivity|].
      apply Forall_app; split; assumption.
    - intros s0 name path Hpath. exists [path]. split; [reflexivity|].
      repeat constructor. eapply state_file_path_exists, Hpath.
    - intros _ s0 path result. exists []. split; [symmetry; apply app_nil_r|].
      constructor. }
  unfold parse_state_steps, bind in Hrun.
  destruct (traverse_state t stages_only cache depth v s)
    as [[result|e] s1] eqn:Hs.
  - unfold lift in Hrun. injection Hrun as _ <-. eapply Htrav; reflexivity.
  - injection Hrun as _ <-. eapply Htrav; reflexivity.
Qed.

Lemma renderer_called_on_existing_witness :
  rendered_existing demo_tree empty_store
    (snd (parse_state_steps demo_tree 3 (VStr "ceph.stage.demo") true true
            empty_store)).
Proof.
  apply (renderer_called_on_existing demo_tree true true 3
           (VStr "ceph.stage.demo") empty_store _
           (fst (parse_state_steps demo_tree 3 (VStr "ceph.stage.demo")
                   true true empty_store))).
  vm_compute. reflexivity.
Defined.

Lemma traverse_state_entries_kept (t : salt_tree) (stages_only cache : bool)
    (depth : nat) :
  forall v, post entries_kept (traverse_state t stages_only cache depth v).
Proof.
  assert (Hrefl : forall s, entries_kept s s) by (intros s path f H; exact H).
  assert (Htrans : forall s1 s2 s3,
             entries_kept s1 s2 -> entries_kept s2 s3 -> entries_kept s1 s3).
  { intros s1 s2 s3 H1 H2 path f H. apply H2, H1, H. }
  induction depth as [|depth IH]; intros v.
  - apply post_raise, Hrefl.
  - cbn [traverse_state]. intros s r s'.
    rewrite traverse_state_body_unfold.
    destruct (if stages_only then _ else _) as [[|]|];
      try (intros [= _ <-]; apply Hrefl).
    destruct (if cache then _ else _) as [[plan|]|] eqn:Hentry;
      try (intros [= _ <-]; apply Hrefl).
    destruct (expand t (traverse_state t stages_only cache depth) v s)
      as [[result|e] s1] eqn:Hexp;
      apply (post_expand t entries_kept Hrefl Htrans
               (fun s0 _ _ _ => Hrefl s0) _ IH) in Hexp;
      intros [= _ <-]; [|exact Hexp].
    destruct cache; [|exact Hexp].
    intros path f Hpath. cbn [filed cache_dir].
    rewrite lookup_insert_ne; [apply Hexp, Hpath|].
    intros <-. congruence.
Qed.

(** X17: a call never overwrites or removes a cache entry: every entry
    that was in the cache directory before the call is there after it,
    with the same content, whatever the outcome.  A plan is only ever
    filed under a path that had no entry. *)
Theorem cache_entries_kept (t : salt_tree) (stages_only cache : bool)
    (depth : nat) (v : value) (s s' : store) (r : res (list step))
    (Hrun : parse_state_steps t depth v stages_only cache s = (r, s')) :
  entries_kept s s'.
Proof.
  unfold parse_state_steps, bind in Hrun.
  destruct (traverse_state t stages_only cache depth v s)
    as [[result|e] s1] eqn:Hs.
  - unfold lift in Hrun. injection Hrun as _ <-.
    eapply traverse_state_entries_kept, Hs.
  - injection Hrun as _ <-. eapply traverse_state_entries_kept, Hs.
Qed.

Lemma cache_entries_kept_witness :
  entries_kept damaged_store
    (snd (parse_state_steps demo_tree 3 (VStr "ceph.stage.demo.sub") true true
            damaged_store)).
Proof.
  apply (cache_entries_kept demo_tree true true 3 (VStr "ceph.stage.demo.sub")
           damaged_store _
           (fst (parse_state_steps demo_tree 3 (VStr "ceph.stage.demo.sub")
                   true true damaged_store))).
  vm_compute. reflexivity.
Defined.

(** X18: a plan found in the cache is returned as it is, whatever the
    Salt tree now holds: the source of the stage is not looked for, the
    renderer is not called and the store is left as it was. *)
Theorem cache_hit_ignores_tree (t1 t2 : salt_tree) (stages_only : bool)
    (depth : nat) (name : string) (s : store) (plan : list step)
    (Hin : stages_only = true -> startswith "ceph.stage" name = true)
    (Hentry :
       cache_dir s !! cache_file_path t1 stages_only (VStr name)
       = Some (Pickled plan)) :
  traverse_state t1 stages_only true (S depth) (VStr name) s = (Ok plan, s) /\
  traverse_state t2 stages_only true (S depth) (VStr name) s = (Ok plan, s).
Proof.
  assert (stages_only && negb (startswith "ceph.stage" name) = false) as Hf.
  { destruct stages_only; [|reflexivity]. rewrite Hin; reflexivity. }
  rewrite !traverse_state_unfold, Hf.
  change (cache_file_path t2 stages_only (VStr name))
    with (cache_file_path t1 stages_only (VStr name)).
  rewrite Hentry. split; reflexivity.
Qed.

Lemma cache_hit_ignores_tree_witness :
  let s := snd (parse_state_steps demo_tree 3 (VStr "ceph.stage.demo") true
                  true empty_store) in
  traverse_state demo_tree true true 1 (VStr "ceph.stage.demo") s
    = (Ok (map unlinked demo_plan), s) /\
  traverse_state flat_tree true true 1 (VStr "ceph.stage.demo") s
    = (Ok (map unlinked demo_plan), s).
Proof.
  intros s.
  apply (cache_hit_ignores_tree demo_tree flat_tree true 0 "ceph.stage.demo" s).
  - reflexivity.
  - vm_compute. reflexivity.
Defined.

(** ** What an expansion returns *)

Lemma fresh_SaltState (desc : string) (a : value) (st : step) :
  SaltState_init desc a = Ok st -> fresh st.
Proof.
  unfold SaltState_init.
  destruct (get_arg a "sls") as [sls|] eqn:Hsls; [|discriminate].
  destruct (get_arg a "tgt") as [tgt|] eqn:Htgt; [|discriminate].
  intros [= <-]. repeat split; assumption.
Qed.

Lemma fresh_SaltRunner (desc : string) (a : value) (st : step) :
  SaltRunner_init desc a = Ok st -> fresh st.
Proof.
  unfold SaltRunner_init.
  destruct (get_arg a "name") as [name|] eqn:Hname; [|discriminate].
  intros [= <-]. repeat split; assumption.
Qed.

Lemma fresh_SaltModule (desc : string) (a : value) (st : step) :
  SaltModule_init desc a = Ok st -> fresh st.
Proof.
  unfold SaltModule_init.
  destruct (get_arg a "name") as [name|] eqn:Hname; [|discriminate].
  intros [= <-]. repeat split; assumption.
Qed.

Lemma fresh_SaltBuiltIn (desc fn : string) (a : value) (st : step) :
  SaltBuiltIn_init desc fn a = Ok st -> fresh st.
Proof.
  unfold SaltBuiltIn_init. destruct (py_iter a) as [raw|]; [|discriminate].
  intros [= <-]. repeat split; eauto.
Qed.

Section yields_facts.

Variable t : salt_tree.

Lemma yields_ret {A} (P : A -> Prop) (a : A) : P a -> yields P (ret a).
Proof. intros Ha s b s' Hs [= <- <-]. auto. Qed.

Lemma yields_raise {A} (P : A -> Prop) (e : exn) : yields P (raise e).
Proof. intros s b s' _ [=]. Qed.

Lemma yields_lift {A} (P : A -> Prop) (r : res A) :
  (forall a, r = Ok a -> P a) -> yields P (lift r).
Proof. intros Hr s b s' Hs [= -> <-]. auto. Qed.

Lemma yields_bind {A B} (P : A -> Prop) (P' : B -> Prop) (f : M A)
    (k : A -> M B) :
  yields P f -> (forall a, P a -> yields P' (k a)) -> yields P' (bind f k).
Proof.
  intros Hf Hk s b s' Hs. unfold bind.
  destruct (f s) as [[a|e] s1] eqn:Hfs; [|discriminate].
  destruct (Hf s a s1 Hs Hfs) as [Ha Hs1]. apply Hk; assumption.
Qed.

Variable self : value -> M (list step).
Hypothesis Hself : forall v, yields (Forall fresh) (self v).

Lemma yields_includes (state_name : string) (incs : list value) :
  forall result,
    Forall fresh result ->
    yields (Forall fresh) (traverse_includes t self state_name incs result).
Proof.
  induction incs as [|inc incs IH]; intros result Hres; cbn [traverse_includes].
  - apply yields_ret, Hres.
  - apply yields_bind with (P := fun _ => True);
      [apply yields_lift; auto|]. intros name _.
    apply yields_bind with (P := Forall fresh); [apply Hself|].
    intros sub Hsub. apply IH, Forall_app. split; assumption.
Qed.

Lemma yields_step (key fn : string) (a : value) (result : list step) :
  Forall fresh result ->
  yields (Forall fresh) (traverse_step self key fn a result).
Proof.
  intros Hres. unfold traverse_step.
  destruct (String.eqb fn "salt.state");
    [|destruct (String.eqb fn "salt.runner");
      [|destruct (String.eqb fn "module.run")]].
  - apply yields_bind with (P := fresh);
      [apply yields_lift, fresh_SaltState|]. intros st Hst.
    apply yields_bind with (P := Forall fresh); [apply Hself|].
    intros sub Hsub. apply yields_ret.
    repeat (apply Forall_app; split); auto.
  - apply yields_bind with (P := fresh);
      [apply yields_lift, fresh_SaltRunner|]. intros st Hst.
    apply yields_ret, Forall_app. split; auto.
  - apply yields_bind with (P := fresh);
      [apply yields_lift, fresh_SaltModule|]. intros st Hst.
    apply yields_ret, Forall_app. split; auto.
  - apply yields_bind with (P := fresh);
      [apply yields_lift, fresh_SaltBuiltIn|]. intros st Hst.
    apply yields_ret, Forall_app. split; auto.
Qed.

Lemma yields_steps (key : string) (steps : list (string * value)) :
  forall result,
    Forall fresh result ->
    yields (Forall fresh) (traverse_steps self key steps result).
Proof.
  induction steps as [|[fn a] steps IH]; intros result Hres;
    cbn [traverse_steps].
  - apply yields_ret, Hres.
  - apply yields_bind with (P := Forall fresh);
      [apply yields_step, Hres | apply IH].
Qed.

Lemma yields_decl (state_name : string) (d : list (string * value))
    (key : string) (steps : value) (result : list step) :
  Forall fresh result ->
  yields (Forall fresh) (traverse_decl t self state_name d key steps result).
Proof.
  intros Hres. unfold traverse_decl. destruct (String.eqb key "include").
  - destruct (dict_get "include" d); [|apply yields_raise].
    apply yields_bind with (P := fun _ => True); [apply yields_lift; auto|].
    intros incs _. apply yields_includes, Hres.
  - destruct steps; try apply yields_ret; try exact Hres.
    apply yields_steps, Hres.
Qed.

Lemma yields_items (state_name : string) (d items : list (string * value)) :
  forall result,
    Forall fresh result ->
    yields (Forall fresh) (traverse_items t self state_name d items result).
Proof.
  induction items as [|[key steps] items IH]; intros result Hres;
    cbn [traverse_items].
  - apply yields_ret, Hres.
  - apply yields_bind with (P := Forall fresh);
      [apply yields_decl, Hres | apply IH].
Qed.

Lemma yields_expand (state_name : value) :
  yields (Forall fresh) (expand t self state_name).
Proof.
  unfold expand.
  apply yields_bind with (P := fun _ => True); [apply yields_lift; auto|].
  intros name _.
  apply yields_bind with (P := fun _ => True); [apply yields_lift; auto|].
  intros path _.
  apply yields_bind with (P := fun _ => True).
  - intros s v s' Hs. unfold SLSRenderer_render. intros [= _ <-].
    split; [exact I | exact Hs].
  - intros state_dict _. destruct state_dict; try apply yields_raise.
    apply yields_items. constructor.
Qed.

End yields_facts.

Lemma traverse_state_yields (t : salt_tree) (stages_only cache : bool)
    (depth : nat) :
  forall v, yields (Forall fresh) (traverse_state t stages_only cache depth v).
Proof.
  induction depth as [|depth IH]; intros v; [apply yields_raise|].
  cbn [traverse_state]. intros s plan s' Hs.
  rewrite traverse_state_body_unfold.
  destruct (if stages_only then _ else _) as [[|]|]; try discriminate.
  { intros [= <- <-]. split; [constructor | exact Hs]. }
  destruct (if cache then _ else _) as [[cached|]|] eqn:Hentry;
    try discriminate.
  { intros [= <- <-]. split; [|exact Hs].
    destruct cache; [|discriminate]. eapply Hs, Hentry. }
  destruct (expand t (traverse_state t stages_only cache depth) v s)
    as [[result|e] s1] eqn:Hexp; [|discriminate].
  destruct (yields_expand t _ IH v s result s1 Hs Hexp) as [Hres Hs1].
  intros [= <- <-]. split; [exact Hres|].
  destruct cache; [|exact Hs1].
  intros path plan. cbn [filed cache_dir].
  destruct (decide (cache_file_path t stages_only v = path)) as [<-|Hne].
  - rewrite lookup_insert_eq. intros [= <-]. exact Hres.
  - rewrite lookup_insert_ne by exact Hne. apply Hs1.
Qed.

(** X19: the steps [_traverse_state] returns are as their constructors
    left them (the plans in the cache being such): no step has a
    dependency yet, the [state] and [target] of a state step and the
    [fun] of a runner or module step are what [get_arg] reads from its
    arguments, and a built-in step has a mapping for arguments and a
    string for [fun].  The plans the call files in the cache are such,
    too. *)
Theorem traverse_state_fresh (t : salt_tree) (stages_only cache : bool)
    (depth : nat) (v : value) (s s' : store) (plan : list step)
    (Hcache : cache_fresh s)
    (Hplan : traverse_state t stages_only cache depth v s = (Ok plan, s')) :
  Forall fresh plan /\ cache_fresh s'.
Proof. eapply traverse_state_yields; eassumption. Qed.

Lemma traverse_state_fresh_witness :
  Forall fresh (map unlinked demo_plan) /\
  cache_fresh (snd (traverse_state demo_tree true true 3
                      (VStr "ceph.stage.demo") empty_store)).
Proof.
  apply (traverse_state_fresh demo_tree true true 3 (VStr "ceph.stage.demo")
           empty_store).
  - intros path plan H. simpl in H. rewrite lookup_empty in H. discriminate.
  - vm_compute. reflexivity.
Defined.

(** ** What the result of [parse_state_steps] says *)

Lemma args_with_no_assert (key : string) (l : list value) :
  args_with key l <> Raise AssertionError.
Proof.
  induction l as [|a l IH]; cbn [args_with]; [discriminate|].
  destruct a; cbn [py_contains]; try discriminate;
    destruct (args_with key l) as [r|e]; try discriminate;
    intros [= ->]; apply IH; reflexivity.
Qed.

Lemma get_arg_no_assert (a : value) (key : string) :
  mapping_or_list a -> get_arg a key <> Raise AssertionError.
Proof.
  destruct a as [| | | |l|d]; try contradiction; intros _; cbn [get_arg].
  - pose proof (args_with_no_assert key l) as Hl.
    destruct (args_with key l) as [[|x r]|e]; try discriminate.
    + destruct x; cbn [py_getitem]; try discriminate.
      destruct (dict_get key d); discriminate.
    + intros [= ->]. apply Hl. reflexivity.
  - destruct (dict_get key d); discriminate.
Qed.

Lemma fresh_mapping_or_list (st : step) :
  fresh st -> mapping_or_list (args st).
Proof.
  intros (_ & _ & H).
  assert (Hok : forall key v, get_arg (args st) key = Ok v ->
                              mapping_or_list (args st)).
  { intros key v. destruct (args st); try discriminate; intros _; exact I. }
  destruct (kind st).
  - destruct H as [H _]. eapply Hok, H.
  - eapply Hok, H.
  - eapply Hok, H.
  - destruct H as [[d ->] _]. exact I.
Qed.

Lemma search_from_no_assert (steps : list step) (mod_name : option string)
    (sid : value) (i : nat) :
  Forall (fun st => mapping_or_list (args st)) steps ->
  search_from i steps mod_name sid <> Raise AssertionError.
Proof.
  revert i. induction steps as [|st steps IH]; intros i Hsteps;
    cbn [search_from]; [discriminate|].
  inversion Hsteps as [|? ? Hst Hrest]; subst.
  assert (Hskip : module_skip mod_name st <> Raise AssertionError).
  { unfold module_skip, step_mod. destruct mod_name as [m|]; [|discriminate].
    destruct (truthy (VStr m)); [|discriminate].
    destruct (kind st); try discriminate;
      destruct (fun_ st); discriminate. }
  destruct (module_skip mod_name st) as [[|]|e]; [apply IH, Hrest| |congruence].
  unfold name_test.
  pose proof (get_arg_no_assert (args st) "name" Hst) as Hname.
  destruct (get_arg (args st) "name") as [v|e]; [|congruence].
  destruct (_ || _); [discriminate | apply IH, Hrest].
Qed.

Section linking_assertion.

Variable plan : list step.
Hypothesis plan_shape : Forall (fun st => mapping_or_list (args st)) plan.

Local Abbreviation same := (same_steps plan).

Lemma link_one_assertion i directive mod_name sid r :
  same r -> link_one i directive mod_name sid r = Raise AssertionError ->
  search_step plan mod_name sid = Ok None.
Proof.
  intros Hr. unfold link_one.
  rewrite (search_step_same r plan) by exact Hr.
  pose proof (search_from_no_assert plan mod_name sid 0 plan_shape) as Hno.
  unfold search_step in *.
  destruct (search_from 0 plan mod_name sid) as [[j|]|e];
    [discriminate | reflexivity | congruence].
Qed.

Lemma link_req_assertion i directive entry r :
  same r -> link_req i directive entry r = Raise AssertionError ->
  exists l,
    In l match entry with
         | VDict d => map (fun item => (Some (fst item), snd item)) d
         | _ => [(None, entry)]
         end /\
    search_step plan (fst l) (snd l) = Ok None.
Proof.
  intros Hr. unfold link_req.
  assert (Hone : link_one i directive None entry r = Raise AssertionError ->
                 exists l, In l [(None, entry)] /\
                           search_step plan l.1 l.2 = Ok None).
  { intros H. exists (None, entry). split; [left; reflexivity|].
    eapply link_one_assertion; eauto. }
  destruct entry as [| | | | |d]; try exact Hone. clear Hone.
  unfold link_pairs. intros Hloop.
  refine (for_each_raises _ d same
            (fun x q q' _ => link_one_keeps plan i directive _ _ q q')
            (fun e => e = AssertionError -> _) r AssertionError
            _ Hr Hloop eq_refl).
  intros x q e Hx Hq Hbody ->.
  exists (Some x.1, x.2). split; [apply in_map_iff; eauto|].
  eapply link_one_assertion; eauto.
Qed.

Lemma process_requisite_directive_assertion i st directive r :
  In st plan -> same r ->
  process_requisite_directive i st directive r = Raise AssertionError ->
  exists req l,
    get_arg (args st) directive = Ok req /\
    In l (declared_lookups req) /\
    search_step plan (fst l) (snd l) = Ok None.
Proof.
  intros Hst Hr. unfold process_requisite_directive, declared_lookups.
  assert (Hshape : mapping_or_list (args st)).
  { rewrite Forall_forall in plan_shape.
    apply plan_shape, list_elem_of_In, Hst. }
  pose proof (get_arg_no_assert (args st) directive Hshape) as Hno.
  destruct (get_arg (args st) directive) as [req|e]; [|congruence].
  destruct (truthy req) eqn:Htr; [|discriminate].
  intros Hloop. exists req.
  refine (for_each_raises _ _ same
            (fun x q q' _ => link_req_keeps plan i directive x q q')
            (fun e => e = AssertionError -> _) r AssertionError
            _ Hr Hloop eq_refl).
  intros x q e Hx Hq Hbody ->.
  destruct (link_req_assertion i directive x q Hq Hbody) as (l & Hl & Hnone).
  exists l. split; [reflexivity|]. split; [|exact Hnone].
  rewrite Htr. apply in_flat_map. eauto.
Qed.

End linking_assertion.

(** X20: on a plan whose steps have a mapping or a list for arguments (as
    all steps that [_traverse_state] builds have), an [AssertionError]
    from the requisite pass always comes from [assert req_step]: some step
    declares a lookup for which the search went through the whole plan and
    found nothing. *)
Theorem assertion_means_unresolved (plan : list step)
    (Hshape : Forall (fun st => mapping_or_list (args st)) plan)
    (Herr : process_requisites plan = Raise AssertionError) :
  exists st directive req l,
    In st plan /\ In directive requisite_directives /\
    get_arg (args st) directive = Ok req /\
    In l (declared_lookups req) /\
    search_step plan (fst l) (snd l) = Ok None.
Proof.
  unfold process_requisites in Herr.
  refine (for_each_raises _ _ (same_steps plan)
            (fun x q q' _ => process_step_keeps plan x q q')
            (fun e => e = AssertionError -> _) plan AssertionError
            _ eq_refl Herr eq_refl).
  intros [i st] q e Hx Hq Hbody ->.
  apply list_elem_of_In, elem_of_lookup_imap in Hx as (j & y & Heq & Hj).
  injection Heq as Hi Hs. subst j y.
  assert (Hst : In st plan).
  { apply list_elem_of_In, list_elem_of_lookup. eauto. }
  unfold process_step in Hbody. cbn [fst snd] in Hbody.
  exists st.
  refine (for_each_raises _ _ (same_steps plan)
            (fun x p p' _ =>
               process_requisite_directive_keeps plan i st x p p')
            (fun e => e = AssertionError -> _) q AssertionError
            _ Hq Hbody eq_refl).
  intros directive p e Hdir Hp Hdirective ->.
  destruct (process_requisite_directive_assertion plan Hshape i st directive p
              Hst Hp Hdirective) as (req & l & Hreq & Hl & Hnone).
  exists directive, req, l. auto.
Qed.

Lemma assertion_means_unresolved_witness :
  exists st directive req l,
    In st [orphan_step] /\ In directive requisite_directives /\
    get_arg (args st) directive = Ok req /\
    In l (declared_lookups req) /\
    search_step [orphan_step] (fst l) (snd l) = Ok None.
Proof.
  apply (assertion_means_unresolved [orphan_step]).
  - repeat constructor.
  - reflexivity.
Defined.

(** X21: the plan [parse_state_steps] returns (the plans in the cache
    being fresh) is the plan [_traverse_state] returns with, for each
    step, exactly the steps found for its [require], [watch] and
    [onchanges] lookups as [on_success_deps] and the steps found for its
    [onfail] lookups as [on_fail_deps]. *)
Theorem parse_state_steps_deps (t : salt_tree) (depth : nat) (v : value)
    (stages_only cache : bool) (s s' : store) (linked : list step)
    (Hcache : cache_fresh s)
    (Hrun : parse_state_steps t depth v stages_only cache s = (Ok linked, s')) :
  exists plan,
    traverse_state t stages_only cache depth v s = (Ok plan, s') /\
    linked =
      map (fun st =>
             {| kind := kind st; desc := desc st; args := args st;
                state := state st; target := target st; fun_ := fun_ st;
                on_success_deps :=
                  targets plan st "require" ++ targets plan st "watch"
                    ++ targets plan st "onchanges";
                on_fail_deps := targets plan st "onfail" |}) plan.
Proof.
  unfold parse_state_steps, bind, lift in Hrun.
  destruct (traverse_state t stages_only cache depth v s)
    as [[plan|e] s1] eqn:Htrav; [|discriminate].
  destruct (process_requisites plan) as [r|e] eqn:Hlink; [|discriminate].
  injection Hrun as -> ->. exists plan. split; [reflexivity|].
  apply process_requisites_map in Hlink as ->.
  destruct (traverse_state_yields _ _ _ _ _ _ _ _ Hcache Htrav) as [Hfresh _].
  apply map_ext_in. intros st Hst.
  rewrite Forall_forall in Hfresh.
  destruct (Hfresh st) as (Hs & Hf & _); [apply list_elem_of_In, Hst|].
  unfold linked_step. rewrite Hs, Hf. reflexivity.
Qed.

Lemma parse_state_steps_deps_witness :
  exists plan,
    traverse_state demo_tree true true 3 (VStr "ceph.stage.demo") empty_store
    = (Ok plan,
       snd (parse_state_steps demo_tree 3 (VStr "ceph.stage.demo") true true
              empty_store)) /\
    demo_plan =
      map (fun st =>
             {| kind := kind st; desc := desc st; args := args st;
                state := state st; target := target st; fun_ := fun_ st;
                on_success_deps :=
                  targets plan st "require" ++ targets plan st "watch"
                    ++ targets plan st "onchanges";
                on_fail_deps := targets plan st "onfail" |}) plan.
Proof.
  apply (parse_state_steps_deps demo_tree 3 (VStr "ceph.stage.demo") true true
           empty_store).
  - intros path plan H. simpl in H. rewrite lookup_empty in H. discriminate.
  - vm_compute. reflexivity.
Defined.

(** X22: with a sound cache (each entry holds the plan that expansion
    without the cache returns for its stage; an empty cache is sound),
    [parse_state_steps] with the cache returns the linked plan that
    [parse_state_steps] without the cache returns, and leaves the cache
    sound. *)
Theorem parse_state_steps_cache_transparent (t : salt_tree) (depth : nat)
    (v : value) (stages_only : bool) (s s0 s0' : store) (linked : list step)
    (Hsound : sound_cache t stages_only s)
    (Hrun : parse_state_steps t depth v stages_only false s0
            = (Ok linked, s0')) :
  exists s',
    parse_state_steps t depth v stages_only true s = (Ok linked, s') /\
    sound_cache t stages_only s'.
Proof.
  unfold parse_state_steps, bind, lift in *.
  destruct (traverse_state t stages_only false depth v s0)
    as [[plan|e] s1] eqn:Htrav; [|discriminate].
  destruct (process_requisites plan) as [r|e] eqn:Hlink; [|discriminate].
  injection Hrun as -> _.
  destruct (traverse_cached_sim t stages_only depth v s0 s plan s1
              Hsound Htrav) as (s' & -> & Hsound').
  rewrite Hlink. eauto.
Qed.

Lemma parse_state_steps_cache_transparent_witness :
  exists s',
    parse_state_steps demo_tree 3 (VStr "ceph.stage.demo") true true
      empty_store = (Ok demo_plan, s') /\
    sound_cache demo_tree true s'.
Proof.
  apply (parse_state_steps_cache_transparent demo_tree 3
           (VStr "ceph.stage.demo") true empty_store empty_store
           (snd (parse_state_steps demo_tree 3 (VStr "ceph.stage.demo") true
                   false empty_store))).
  - intros name f H. simpl in H. rewrite lookup_empty in H. discriminate.
  - vm_compute. reflexivity.
Defined.

(** X23: once a stage has been expanded with the cache, its plan is
    served from the cache for good: whatever call of [parse_state_steps]
    is made next, for whatever stage and with whatever flags and outcome,
    expanding the stage again returns the same plan without rendering
    anything. *)
Theorem cached_plan_stays (t : salt_tree) (stages_only : bool)
    (depth : nat) (name : string) (s s1 : store) (plan : list step)
    (depth2 : nat) (v2 : value) (stages_only2 cache2 : bool)
    (r2 : res (list step)) (s2 : store) (depth3 : nat)
    (Hin : stages_only = true -> startswith "ceph.stage" name = true)
    (Hfirst : traverse_state t stages_only true depth (VStr name) s
              = (Ok plan, s1))
    (Hnext : parse_state_steps t depth2 v2 stages_only2 cache2 s1 = (r2, s2)) :
  traverse_state t stages_only true (S depth3) (VStr name) s2 = (Ok plan, s2).
Proof.
  assert (stages_only && negb (startswith "ceph.stage" name) = false) as Hf.
  { destruct stages_only; [|reflexivity]. rewrite Hin; reflexivity. }
  assert (Hentry : cache_dir s1 !! cache_file_path t stages_only (VStr name)
                   = Some (Pickled plan)).
  { destruct depth as [|n]; [discriminate|].
    rewrite traverse_state_unfold, Hf in Hfirst.
    destruct (cache_dir s !! cache_file_path t stages_only (VStr name))
      as [[cached|]|] eqn:Hs; try discriminate.
    - injection Hfirst as <- <-. exact Hs.
    - destruct (expand t (traverse_state t stages_only true n) (VStr name) s)
        as [[result|e] s0]; [|discriminate].
      injection Hfirst as <- <-. cbn [cache_dir]. apply lookup_insert_eq. }
  assert (Hkept : entries_kept s1 s2).
  { unfold parse_state_steps, bind in Hnext.
    destruct (traverse_state t stages_only2 cache2 depth2 v2 s1)
      as [[result|e] s0] eqn:Hs.
    - unfold lift in Hnext. injection Hnext as _ <-.
      eapply traverse_state_entries_kept, Hs.
    - injection Hnext as _ <-. eapply traverse_state_entries_kept, Hs. }
  rewrite traverse_state_unfold, Hf, (Hkept _ _ Hentry). reflexivity.
Qed.

Lemma cached_plan_stays_witness :
  let s1 := snd (traverse_state demo_tree true true 3
                   (VStr "ceph.stage.demo") empty_store) in
  let s2 := snd (parse_state_steps demo_tree 2 (VStr "ceph.stage.absent")
                   true true s1) in
  traverse_state demo_tree true true 1 (VStr "ceph.stage.demo") s2
  = (Ok (map unlinked demo_plan), s2).
Proof.
  intros s1 s2.
  apply (cached_plan_stays demo_tree true 3 "ceph.stage.demo" empty_store s1
           (map unlinked demo_plan) 2 (VStr "ceph.stage.absent") true true
           (fst (parse_state_steps demo_tree 2 (VStr "ceph.stage.absent")
                   true true s1))
           s2 0).
  - reflexivity.
  - vm_compute. reflexivity.
  - vm_compute. reflexivity.
Defined.
